(** * A polyphonic software synthesizer: envelope, instruments, mixer, sequencer

    Shallow embedding of [source/main.cpp].  The program computes on C++
    [double]s ([FTYPE]).  Its functions are written once, over an interface
    [Num] of the arithmetic the source uses, and run on two number systems:

    - [float]: IEEE 754 binary64 (Rocq's primitive floats), the arithmetic the
      program really performs, division by zero yielding an infinity or a NaN;
    - [exact]: the rational numbers with one extra element for "undefined",
      the value of a division by zero.  Every literal of the source denotes
      the rational value of the double it is compiled to, and no operation
      rounds.  Algebraic laws (ramps, monotonicity) are proved here, for the
      function that the doubles approximate; what is said of the program
      where rounding, an infinity or a NaN decides is said on [float]. *)

From Stdlib Require Import ZArith QArith Qabs Qpower Floats Lqa Lia List Bool.
From Stdlib Require Import Ascii String.
From Bignums Require Import BigN.
Import ListNotations.

Set Warnings "-inexact-float".
Set Implicit Arguments.

(** ** The arithmetic of [FTYPE] *)

Class Num (F : Type) : Type := {
  lit : float -> F;          (* a [double] literal of the source *)
  of_int : Z -> F;           (* conversion [int -> double] *)
  fadd : F -> F -> F;
  fsub : F -> F -> F;
  fmul : F -> F -> F;
  fdiv : F -> F -> F;
  fle : F -> F -> bool;      (* [<=] *)
  flt : F -> F -> bool       (* [<] *)
}.

Arguments lit {F _} _%_float.

Declare Scope num_scope.
Delimit Scope num_scope with num.
Infix "+" := fadd : num_scope.
Infix "-" := fsub : num_scope.
Infix "*" := fmul : num_scope.
Infix "/" := fdiv : num_scope.
Notation "x <=? y" := (fle x y) : num_scope.
Notation "x <? y" := (flt x y) : num_scope.
Notation "x >? y" := (flt y x) : num_scope.
Notation "x >=? y" := (fle y x) : num_scope.

(** *** IEEE binary64 *)

Definition float_of_Z (z : Z) : float :=
  match z with
  | Z0 => 0%float
  | Zpos _ => PrimFloat.of_uint63 (Uint63.of_Z z)
  | Zneg p => PrimFloat.opp (PrimFloat.of_uint63 (Uint63.of_Z (Zpos p)))
  end.

#[export] Instance float_num : Num float := {
  lit := fun x => x;
  of_int := float_of_Z;
  fadd := PrimFloat.add;
  fsub := PrimFloat.sub;
  fmul := PrimFloat.mul;
  fdiv := PrimFloat.div;
  fle := PrimFloat.leb;
  flt := PrimFloat.ltb
}.

(** *** Exact rationals with an undefined element *)

Definition exact : Type := option Q.

(* The rational value of a double; infinities and NaN have none. *)
Definition Q_of_float (x : float) : exact :=
  match Prim2SF x with
  | S754_zero _ => Some 0%Q
  | S754_finite s m e =>
      let v := (inject_Z (Zpos m) * Qpower 2 e)%Q in
      Some (Qred (if s then Qopp v else v))
  | _ => None
  end.

Definition exact_lift2 (f : Q -> Q -> Q) (a b : exact) : exact :=
  match a, b with
  | Some x, Some y => Some (f x y)
  | _, _ => None
  end.

(* A division by zero has no rational value.  On doubles it is a NaN when
   the dividend is zero or a NaN, and an infinity otherwise, which later
   operations may turn into a number again (the clamp of [amplitude] turns a
   negative infinity into 0.0): an undefined result here says that the
   doubles left the rationals, not which double comes out. *)
Definition exact_div (a b : exact) : exact :=
  match a, b with
  | Some x, Some y => if Qeq_bool y 0 then None else Some (x / y)%Q
  | _, _ => None
  end.

(* Comparisons with the undefined element are false, as with a NaN. *)
Definition exact_le (a b : exact) : bool :=
  match a, b with
  | Some x, Some y => Qle_bool x y
  | _, _ => false
  end.

Definition exact_lt (a b : exact) : bool :=
  match a, b with
  | Some x, Some y => negb (Qle_bool y x)
  | _, _ => false
  end.

#[export] Instance exact_num : Num exact := {
  lit := Q_of_float;
  of_int := fun z => Some (inject_Z z);
  fadd := exact_lift2 Qplus;
  fsub := exact_lift2 Qminus;
  fmul := exact_lift2 Qmult;
  fdiv := exact_div;
  fle := exact_le;
  flt := exact_lt
}.

(** ** Envelopes *)

Record envelope_adsr (F : Type) : Type := {
  dAttackTime : F;
  dDecayTime : F;
  dSustainAmplitude : F;
  dReleaseTime : F;
  dStartAmplitude : F
}.

Section Envelope.
Context {F : Type} {N : Num F}.
Local Open Scope num_scope.

(* envelope_adsr::envelope_adsr() *)
Definition envelope_adsr_default : envelope_adsr F :=
  {| dAttackTime := lit 0.1;
     dDecayTime := lit 0.1;
     dSustainAmplitude := lit 1.0;
     dReleaseTime := lit 0.2;
     dStartAmplitude := lit 1.0 |}.

(* envelope_adsr::amplitude.  The three [if]s of each regime run one after
   the other, each overwriting the variable when its condition holds. *)
Definition amplitude (e : envelope_adsr F) (dTime dTimeOn dTimeOff : F) : F :=
  let dAmplitude := lit 0.0 in
  let dReleaseAmplitude := lit 0.0 in
  let dAmplitude :=
    if dTimeOn >? dTimeOff then (* Note is on *)
      let dLifeTime := dTime - dTimeOn in
      let dAmplitude :=
        if dLifeTime <=? dAttackTime e
        then (dLifeTime / dAttackTime e) * dStartAmplitude e
        else dAmplitude in
      let dAmplitude :=
        if (dLifeTime >? dAttackTime e)
           && (dLifeTime <=? (dAttackTime e + dDecayTime e))
        then ((dLifeTime - dAttackTime e) / dDecayTime e)
             * (dSustainAmplitude e - dStartAmplitude e) + dStartAmplitude e
        else dAmplitude in
      let dAmplitude :=
        if dLifeTime >? (dAttackTime e + dDecayTime e)
        then dSustainAmplitude e
        else dAmplitude in
      dAmplitude
    else (* Note is off *)
      let dLifeTime := dTimeOff - dTimeOn in
      let dReleaseAmplitude :=
        if dLifeTime <=? dAttackTime e
        then (dLifeTime / dAttackTime e) * dStartAmplitude e
        else dReleaseAmplitude in
      let dReleaseAmplitude :=
        if (dLifeTime >? dAttackTime e)
           && (dLifeTime <=? (dAttackTime e + dDecayTime e))
        then ((dLifeTime - dAttackTime e) / dDecayTime e)
             * (dSustainAmplitude e - dStartAmplitude e) + dStartAmplitude e
        else dReleaseAmplitude in
      let dReleaseAmplitude :=
        if dLifeTime >? (dAttackTime e + dDecayTime e)
        then dSustainAmplitude e
        else dReleaseAmplitude in
      ((dTime - dTimeOff) / dReleaseTime e) * (lit 0.0 - dReleaseAmplitude)
      + dReleaseAmplitude
  in
  (* Amplitude should not be negative *)
  if dAmplitude <=? lit 0.01 then lit 0.0 else dAmplitude.

(* synth::env *)
Definition env (dTime : F) (e : envelope_adsr F) (dTimeOn dTimeOff : F) : F :=
  amplitude e dTime dTimeOn dTimeOff.
End Envelope.


(** ** Outcomes of a run

    [OutOfFuel] stands for a loop that has not ended within the given number
    of iterations, [Undefined] for undefined behaviour of C++ (an iterator
    or an index used out of range). *)

Inductive result (A : Type) : Type :=
| Ok (a : A)
| OutOfFuel
| Undefined.

Arguments Ok {A} a.
Arguments OutOfFuel {A}.
Arguments Undefined {A}.

(* Computations that draw from the generator of [rand()], of state [R]. *)
Definition M (R A : Type) : Type := R -> result (A * R).

Definition ret {R A : Type} (a : A) : M R A := fun r => Ok (a, r).

Definition bind {R A B : Type} (m : M R A) (k : A -> M R B) : M R B :=
  fun r =>
    match m r with
    | Ok (a, r') => k a r'
    | OutOfFuel => OutOfFuel
    | Undefined => Undefined
    end.

Definition lift {R A : Type} (x : result A) : M R A :=
  fun r =>
    match x with
    | Ok a => Ok (a, r)
    | OutOfFuel => OutOfFuel
    | Undefined => Undefined
    end.

Declare Scope synth_scope.
Delimit Scope synth_scope with synth.
Notation "x <- m ;; k" := (bind m (fun x => k))
  (at level 61, m at next level, right associativity) : synth_scope.

(** ** What the program takes from libm and the C library *)

Class Libm (F : Type) : Type := {
  sin : F -> F;
  asin : F -> F;
  fmod : F -> F -> F
}.

Class Pow (F : Type) : Type := pow : F -> F -> F.

Class Rand (R : Type) : Type := {
  rand : R -> Z * R;
  RAND_MAX : Z
}.

(* Exact powers with an integer exponent; any other power is left undefined.
   This is the number that libm's [pow] approximates: it is not rounded, and
   it neither underflows to 0 nor overflows to an infinity as the double
   does for exponents of large magnitude.  It serves where the pitch only
   feeds an oscillator; what is proved of [scale] is proved on doubles. *)
#[export] Instance exact_pow : Pow exact :=
  fun b e =>
    match b, e with
    | Some x, Some y =>
        let n := (Qnum y / Zpos (Qden y))%Z in
        if Qeq_bool (inject_Z n) y
        then if Qeq_bool x 0 && (n <? 0)%Z then None else Some (Qpower x n)
        else None
    | _, _ => None
    end.

(** ** Notes and instruments *)

(* The structs derived from [instrument_base]; a note points to one of the
   program's instances, or to none. *)
Inductive instrument_class : Type :=
| instrument_bell
| instrument_bell8
| instrument_harmonica
| instrument_drumkick
| instrument_drumsnare
| instrument_drumhihat.

Definition instrument_eqb (a b : instrument_class) : bool :=
  match a, b with
  | instrument_bell, instrument_bell
  | instrument_bell8, instrument_bell8
  | instrument_harmonica, instrument_harmonica
  | instrument_drumkick, instrument_drumkick
  | instrument_drumsnare, instrument_drumsnare
  | instrument_drumhihat, instrument_drumhihat => true
  | _, _ => false
  end.

(* The global instances. *)
Definition instBell : instrument_class := instrument_bell.
Definition instHarm : instrument_class := instrument_harmonica.
Definition instKick : instrument_class := instrument_drumkick.
Definition instSnare : instrument_class := instrument_drumsnare.
Definition instHiHat : instrument_class := instrument_drumhihat.

(* [id] is an [int]; the ids of the program (64 to 70, shifted by at most 36)
   stay far from the bounds of [int], so its sums are sums in [Z]. *)
Record note (F : Type) : Type := {
  id : Z;                        (* Position in scale *)
  on : F;                        (* Time note was activated *)
  off : F;                       (* Time note was deactivated *)
  active : bool;
  channel : option instrument_class    (* [None] is [nullptr] *)
}.

Definition set_id {F} (n : note F) (v : Z) : note F :=
  {| id := v; on := on n; off := off n; active := active n; channel := channel n |}.
Definition set_on {F} (n : note F) (v : F) : note F :=
  {| id := id n; on := v; off := off n; active := active n; channel := channel n |}.
Definition set_off {F} (n : note F) (v : F) : note F :=
  {| id := id n; on := on n; off := v; active := active n; channel := channel n |}.
Definition set_active {F} (n : note F) (v : bool) : note F :=
  {| id := id n; on := on n; off := off n; active := v; channel := channel n |}.
Definition set_channel {F} (n : note F) (v : option instrument_class) : note F :=
  {| id := id n; on := on n; off := off n; active := active n; channel := v |}.

Record instrument_base (F : Type) : Type := {
  dVolume : F;
  inst_env : envelope_adsr F;
  fMaxLifeTime : F;
  name : string
}.

Definition OSC_SINE : Z := 0.
Definition OSC_SQUARE : Z := 1.
Definition OSC_TRIANGLE : Z := 2.
Definition OSC_SAW_ANA : Z := 3.
Definition OSC_SAW_DIG : Z := 4.
Definition OSC_NOISE : Z := 5.
Definition SCALE_DEFAULT : Z := 0.

(** ** Oscillator, scale and instruments *)

Section Synth.
Context {F : Type} {N : Num F} {L : Libm F} {P : Pow F}.
Context {R : Type} {G : Rand R}.
Local Open Scope num_scope.
Local Open Scope synth_scope.

Definition M_PI : F := lit 3.14159265358979323846.

(* Converts frequency (Hz) to angular velocity *)
Definition w (dHertz : F) : F := dHertz * lit 2.0 * M_PI.

(* The loop of OSC_SAW_ANA:
   [for (FTYPE n = 1.0; n < dCustom; n++) dOutput += (sin(n*dFreq)) / n;] *)
Fixpoint saw_loop (fuel : nat) (dFreq dCustom n dOutput : F) : result F :=
  if n <? dCustom then
    match fuel with
    | O => OutOfFuel
    | S fuel' =>
        saw_loop fuel' dFreq dCustom (n + lit 1.0) (dOutput + sin (n * dFreq) / n)
    end
  else Ok dOutput.

(* synth::osc; the default arguments of the source are
   [nType = OSC_SINE], [dLFOHertz = 0.0], [dLFOAmplitude = 0.0], [dCustom = 50.0]. *)
Definition osc (fuel : nat) (dTime dHertz : F) (nType : Z)
    (dLFOHertz dLFOAmplitude dCustom : F) : M R F :=
  let dFreq := w dHertz * dTime + dLFOAmplitude * dHertz * sin (w dLFOHertz * dTime) in
  if (nType =? OSC_SINE)%Z then (* Sine wave bewteen -1 and +1 *)
    ret (sin dFreq)
  else if (nType =? OSC_SQUARE)%Z then (* Square wave between -1 and +1 *)
    ret (if sin dFreq >? lit 0 then lit 1.0 else lit (-1.0))
  else if (nType =? OSC_TRIANGLE)%Z then (* Triangle wave between -1 and +1 *)
    ret (asin (sin dFreq) * (lit 2.0 / M_PI))
  else if (nType =? OSC_SAW_ANA)%Z then (* Saw wave (analogue / warm / slow) *)
    dOutput <- lift (saw_loop fuel dFreq dCustom (lit 1.0) (lit 0.0)) ;;
    ret (dOutput * (lit 2.0 / M_PI))
  else if (nType =? OSC_SAW_DIG)%Z then
    ret ((lit 2.0 / M_PI)
         * (dHertz * M_PI * fmod dTime (lit 1.0 / dHertz) - (M_PI / lit 2.0)))
  else if (nType =? OSC_NOISE)%Z then
    fun r =>
      let (x, r') := rand r in
      Ok (lit 2.0 * (of_int x / of_int RAND_MAX) - lit 1.0, r')
  else ret (lit 0.0).

Definition osc_default (fuel : nat) (dTime dHertz : F) : M R F :=
  osc fuel dTime dHertz OSC_SINE (lit 0.0) (lit 0.0) (lit 50.0).

(* synth::scale; every [nScaleID] takes the one branch of the switch. *)
Definition scale (nNoteID : Z) : F :=
  of_int 8 * pow (lit 1.0594630943592952645618252949463) (of_int nNoteID).

(* The constructors of the instruments: [env] starts from envelope_adsr(),
   then the fields the constructor assigns. *)
Definition construct (i : instrument_class) : instrument_base F :=
  match i with
  | instrument_bell =>
      {| inst_env := {| dAttackTime := lit 0.01; dDecayTime := lit 1.0;
                        dSustainAmplitude := lit 0.0; dReleaseTime := lit 1.0;
                        dStartAmplitude := dStartAmplitude envelope_adsr_default |};
         fMaxLifeTime := lit 3.0; dVolume := lit 1.0; name := "Bell" |}
  | instrument_bell8 =>
      {| inst_env := {| dAttackTime := lit 0.01; dDecayTime := lit 0.5;
                        dSustainAmplitude := lit 0.8; dReleaseTime := lit 1.0;
                        dStartAmplitude := dStartAmplitude envelope_adsr_default |};
         fMaxLifeTime := lit 3.0; dVolume := lit 1.0; name := "8-Bit Bell" |}
  | instrument_harmonica =>
      {| inst_env := {| dAttackTime := lit 0.00; dDecayTime := lit 1.0;
                        dSustainAmplitude := lit 0.95; dReleaseTime := lit 0.5;
                        dStartAmplitude := dStartAmplitude envelope_adsr_default |};
         fMaxLifeTime := lit (-1.0); name := "Harmonica"; dVolume := lit 0.3 |}
  | instrument_drumkick =>
      {| inst_env := {| dAttackTime := lit 0.01; dDecayTime := lit 0.15;
                        dSustainAmplitude := lit 0.0; dReleaseTime := lit 0.0;
                        dStartAmplitude := dStartAmplitude envelope_adsr_default |};
         fMaxLifeTime := lit 1.5; name := "Drum Kick"; dVolume := lit 1.0 |}
  | instrument_drumsnare =>
      {| inst_env := {| dAttackTime := lit 0.0; dDecayTime := lit 0.2;
                        dSustainAmplitude := lit 0.0; dReleaseTime := lit 0.0;
                        dStartAmplitude := dStartAmplitude envelope_adsr_default |};
         fMaxLifeTime := lit 1.0; name := "Drum Snare"; dVolume := lit 1.0 |}
  | instrument_drumhihat =>
      {| inst_env := {| dAttackTime := lit 0.01; dDecayTime := lit 0.05;
                        dSustainAmplitude := lit 0.0; dReleaseTime := lit 0.0;
                        dStartAmplitude := dStartAmplitude envelope_adsr_default |};
         fMaxLifeTime := lit 1.0; name := "Drum HiHat"; dVolume := lit 0.5 |}
  end.

(* The virtual [sound]: the sample, and whether [bNoteFinished] is set.
   The calls of [osc] in one sum are run in the order they are written; at
   most one of them draws from [rand()]. *)
Definition sound (i : instrument_class) (fuel : nat) (dTime : F) (n : note F)
    : M R (F * bool) :=
  let b := construct i in
  let dAmplitude := env dTime (inst_env b) (on n) (off n) in
  match i with
  | instrument_bell =>
      let bNoteFinished := dAmplitude <=? lit 0.0 in
      o1 <- osc fuel (dTime - on n) (scale (id n + 12)) OSC_SINE
              (lit 5.0) (lit 0.001) (lit 50.0) ;;
      o2 <- osc_default fuel (dTime - on n) (scale (id n + 24)) ;;
      o3 <- osc_default fuel (dTime - on n) (scale (id n + 36)) ;;
      let dSound := lit 1.00 * o1 + lit 0.50 * o2 + lit 0.25 * o3 in
      ret (dAmplitude * dSound * dVolume b, bNoteFinished)
  | instrument_bell8 =>
      let bNoteFinished := dAmplitude <=? lit 0.0 in
      o1 <- osc fuel (dTime - on n) (scale (id n)) OSC_SQUARE
              (lit 5.0) (lit 0.001) (lit 50.0) ;;
      o2 <- osc_default fuel (dTime - on n) (scale (id n + 12)) ;;
      o3 <- osc_default fuel (dTime - on n) (scale (id n + 24)) ;;
      let dSound := lit 1.00 * o1 + lit 0.50 * o2 + lit 0.25 * o3 in
      ret (dAmplitude * dSound * dVolume b, bNoteFinished)
  | instrument_harmonica =>
      let bNoteFinished := dAmplitude <=? lit 0.0 in
      o1 <- osc fuel (on n - dTime) (scale (id n - 12)) OSC_SAW_ANA
              (lit 5.0) (lit 0.001) (lit 100) ;;
      o2 <- osc fuel (dTime - on n) (scale (id n)) OSC_SQUARE
              (lit 5.0) (lit 0.001) (lit 50.0) ;;
      o3 <- osc fuel (dTime - on n) (scale (id n + 12)) OSC_SQUARE
              (lit 0.0) (lit 0.0) (lit 50.0) ;;
      o4 <- osc fuel (dTime - on n) (scale (id n + 24)) OSC_NOISE
              (lit 0.0) (lit 0.0) (lit 50.0) ;;
      let dSound := lit 1.0 * o1 + lit 1.00 * o2 + lit 0.50 * o3 + lit 0.05 * o4 in
      ret (dAmplitude * dSound * dVolume b, bNoteFinished)
  | instrument_drumkick =>
      let bNoteFinished :=
        (fMaxLifeTime b >? lit 0.0) && ((dTime - on n) >=? fMaxLifeTime b) in
      o1 <- osc fuel (dTime - on n) (scale (id n - 36)) OSC_SINE
              (lit 1.0) (lit 1.0) (lit 50.0) ;;
      o2 <- osc fuel (dTime - on n) (lit 0) OSC_NOISE
              (lit 0.0) (lit 0.0) (lit 50.0) ;;
      let dSound := lit 0.99 * o1 + lit 0.01 * o2 in
      ret (dAmplitude * dSound * dVolume b, bNoteFinished)
  | instrument_drumsnare =>
      let bNoteFinished :=
        (fMaxLifeTime b >? lit 0.0) && ((dTime - on n) >=? fMaxLifeTime b) in
      o1 <- osc fuel (dTime - on n) (scale (id n - 24)) OSC_SINE
              (lit 0.5) (lit 1.0) (lit 50.0) ;;
      o2 <- osc fuel (dTime - on n) (lit 0) OSC_NOISE
              (lit 0.0) (lit 0.0) (lit 50.0) ;;
      let dSound := lit 0.5 * o1 + lit 0.5 * o2 in
      ret (dAmplitude * dSound * dVolume b, bNoteFinished)
  | instrument_drumhihat =>
      let bNoteFinished :=
        (fMaxLifeTime b >? lit 0.0) && ((dTime - on n) >=? fMaxLifeTime b) in
      o1 <- osc fuel (dTime - on n) (scale (id n - 12)) OSC_SQUARE
              (lit 1.5) (lit 1) (lit 50.0) ;;
      o2 <- osc fuel (dTime - on n) (lit 0) OSC_NOISE
              (lit 0.0) (lit 0.0) (lit 50.0) ;;
      let dSound := lit 0.1 * o1 + lit 0.9 * o2 in
      ret (dAmplitude * dSound * dVolume b, bNoteFinished)
  end.


(** ** The notes that sound, and the mixer *)

(* note::note() *)
Definition note_default : note F :=
  {| id := 0; on := lit 0.0; off := lit 0.0; active := false; channel := None |}.

(* safe_remove: erases every element on which [f] is false. *)
Fixpoint safe_remove {T : Type} (f : T -> bool) (v : list T) : list T :=
  match v with
  | [] => []
  | n :: v' => if negb (f n) then safe_remove f v' else n :: safe_remove f v'
  end.

(* The loop of MakeNoise over [vecNotes]: the sum so far, and the notes
   with their flags as the loop leaves them. *)
Fixpoint MakeNoise_loop (fuel : nat) (dTime : F) (vecNotes : list (note F))
    (dMixedOutput : F) : M R (F * list (note F)) :=
  match vecNotes with
  | [] => ret (dMixedOutput, [])
  | n :: rest =>
      s <- match channel n with
           | Some c => sound c fuel dTime n
           | None => ret (lit 0, false)
           end ;;
      let (dSound, bNoteFinished) := s in
      (* Mix into output *)
      let dMixedOutput := dMixedOutput + dSound in
      (* Flag note to be removed *)
      let n := if bNoteFinished then set_active n false else n in
      p <- MakeNoise_loop fuel dTime rest dMixedOutput ;;
      ret (fst p, n :: snd p)
  end.

(* MakeNoise: the sample, and [vecNotes] as the call leaves it. *)
Definition MakeNoise (fuel : nat) (dTime : F) (vecNotes : list (note F))
    : M R (F * list (note F)) :=
  p <- MakeNoise_loop fuel dTime vecNotes (lit 0.0) ;;
  ret (fst p * lit 0.2, safe_remove (@active F) (snd p)).

(** ** Sequencer *)

Record sequencer_channel : Type := {
  instrument : option instrument_class;
  sBeat : string
}.

Record sequencer : Type := {
  nBeats : Z;
  nSubBeats : Z;
  fTempo : F;
  fBeatTime : F;
  fAccumulate : F;
  nCurrentBeat : Z;
  nTotalBeats : Z;
  vecChannel : list sequencer_channel;
  vecNotes : list (note F)
}.

(* sequencer::sequencer; [tempo] is a binary32 in the source, widened to
   [FTYPE] without loss. *)
Definition sequencer_new (tempo : F) (beats subbeats : Z) : sequencer :=
  {| nBeats := beats;
     nSubBeats := subbeats;
     fTempo := tempo;
     fBeatTime := (lit 60.0 / tempo) / of_int subbeats;
     nCurrentBeat := 0;
     nTotalBeats := subbeats * beats;
     fAccumulate := lit 0;
     vecChannel := [];
     vecNotes := [] |}.

(* [s[i]] on a wstring: the null character at [i = size()], undefined beyond. *)
Definition wchar_at (s : string) (i : Z) : result ascii :=
  if (i <? 0)%Z then Undefined
  else match String.get (Z.to_nat i) s with
       | Some c => Ok c
       | None => if (i =? Z.of_nat (String.length s))%Z then Ok zero else Undefined
       end.

(* [for (auto v : vecChannel)] with its counter [c]. *)
Fixpoint Update_channels (all vs : list sequencer_channel) (c : nat)
    (beat : Z) (out : list (note F)) : result (list (note F)) :=
  match vs with
  | [] => Ok out
  | v :: vs' =>
      match wchar_at (sBeat v) beat with
      | Ok ch =>
          if Ascii.eqb ch "X" then
            match nth_error all c with
            | Some vc =>
                let n := note_default in
                let n := set_channel n (instrument vc) in
                let n := set_active n true in
                let n := set_id n 64 in
                Update_channels all vs' (S c) beat (out ++ [n])
            | None => Undefined
            end
          else Update_channels all vs' (S c) beat out
      | OutOfFuel => OutOfFuel
      | Undefined => Undefined
      end
  end.

(* [while (fAccumulate >= fBeatTime)] *)
Fixpoint Update_loop (fuel : nat) (q : sequencer) : result sequencer :=
  if fAccumulate q >=? fBeatTime q then
    match fuel with
    | O => OutOfFuel
    | S fuel' =>
        let acc := fAccumulate q - fBeatTime q in
        let beat := (nCurrentBeat q + 1)%Z in
        let beat := if (beat >=? nTotalBeats q)%Z then 0%Z else beat in
        match Update_channels (vecChannel q) (vecChannel q) 0 beat (vecNotes q) with
        | Ok out =>
            Update_loop fuel'
              {| nBeats := nBeats q; nSubBeats := nSubBeats q; fTempo := fTempo q;
                 fBeatTime := fBeatTime q; fAccumulate := acc;
                 nCurrentBeat := beat; nTotalBeats := nTotalBeats q;
                 vecChannel := vecChannel q; vecNotes := out |}
        | OutOfFuel => OutOfFuel
        | Undefined => Undefined
        end
    end
  else Ok q.

(* sequencer::Update: the number of notes, and the sequencer afterwards. *)
Definition Update (fuel : nat) (q : sequencer) (fElapsedTime : F)
    : result (Z * sequencer) :=
  let q :=
    {| nBeats := nBeats q; nSubBeats := nSubBeats q; fTempo := fTempo q;
       fBeatTime := fBeatTime q; fAccumulate := fAccumulate q + fElapsedTime;
       nCurrentBeat := nCurrentBeat q; nTotalBeats := nTotalBeats q;
       vecChannel := vecChannel q; vecNotes := [] |} in
  match Update_loop fuel q with
  | Ok q' => Ok (Z.of_nat (List.length (vecNotes q')), q')
  | OutOfFuel => OutOfFuel
  | Undefined => Undefined
  end.

(* sequencer::AddInstrument *)
Definition AddInstrument (q : sequencer) (inst : option instrument_class) : sequencer :=
  {| nBeats := nBeats q; nSubBeats := nSubBeats q; fTempo := fTempo q;
     fBeatTime := fBeatTime q; fAccumulate := fAccumulate q;
     nCurrentBeat := nCurrentBeat q; nTotalBeats := nTotalBeats q;
     vecChannel := vecChannel q ++ [ {| instrument := inst; sBeat := EmptyString |} ];
     vecNotes := vecNotes q |}.

(** ** The keyboard: the event loop of [main] *)

Inductive event_type : Type := SDL_QUIT | SDL_KEYDOWN | SDL_KEYUP | SDL_OTHER.

Record SDL_Event : Type := {
  ev_type : event_type;      (* event.type *)
  ev_scancode : Z;           (* event.key.keysym.scancode *)
  ev_repeat : Z              (* event.key.repeat *)
}.

Definition event_type_eqb (a b : event_type) : bool :=
  match a, b with
  | SDL_QUIT, SDL_QUIT | SDL_KEYDOWN, SDL_KEYDOWN
  | SDL_KEYUP, SDL_KEYUP | SDL_OTHER, SDL_OTHER => true
  | _, _ => false
  end.

(* The scancodes of SDL_scancode.h that [main] lists. *)
Definition SDL_SCANCODE_Z : Z := 29.
Definition SDL_SCANCODE_X : Z := 27.
Definition SDL_SCANCODE_C : Z := 6.
Definition SDL_SCANCODE_V : Z := 25.
Definition SDL_SCANCODE_B : Z := 5.
Definition SDL_SCANCODE_N : Z := 17.
Definition SDL_SCANCODE_M : Z := 16.

Definition notes : list Z :=
  [SDL_SCANCODE_Z; SDL_SCANCODE_X; SDL_SCANCODE_C; SDL_SCANCODE_V;
   SDL_SCANCODE_B; SDL_SCANCODE_N; SDL_SCANCODE_M].

(* std::find_if: the position found, [None] for [end()]. *)
Fixpoint find_if {T : Type} (f : T -> bool) (v : list T) : option nat :=
  match v with
  | [] => None
  | x :: v' => if f x then Some O else option_map S (find_if f v')
  end.

(* Assignment through an iterator. *)
Fixpoint assign_at {T : Type} (i : nat) (x : T) (v : list T) : list T :=
  match i, v with
  | _, [] => []
  | O, _ :: v' => x :: v'
  | S i', y :: v' => y :: assign_at i' x v'
  end.

Definition channel_is (item : note F) (inst : instrument_class) : bool :=
  match channel item with
  | Some c => instrument_eqb c inst
  | None => false
  end.

(* The body of [for (int k = 0; k < notes.size(); ++k)] for one [k], [code]
   being [notes[k]].  [noteFound] is taken once, before the two [if]s;
   reading through it when it is [end()] is undefined behaviour. *)
Definition key_event (event : SDL_Event) (time : F) (k : Z) (code : Z)
    (vecNotes : list (note F)) : result (list (note F)) :=
  let noteFound :=
    find_if (fun item => (id item =? k + 64)%Z && channel_is item instHarm) vecNotes in
  let after_down :=
    if event_type_eqb (ev_type event) SDL_KEYDOWN
       && (ev_scancode event =? code)%Z && (ev_repeat event =? 0)%Z
    then
      match noteFound with
      | None =>
          let n := note_default in
          let n := set_id n (k + 64) in
          let n := set_on n time in
          let n := set_active n true in
          let n := set_channel n (Some instHarm) in
          (* Add note to vector *)
          Ok (vecNotes ++ [n])
      | Some i =>
          match nth_error vecNotes i with
          | Some found =>
              if off found >? on found then
                (* Key has been pressed again during release phase *)
                Ok (assign_at i (set_active (set_on found time) true) vecNotes)
              else Ok vecNotes
          | None => Undefined
          end
      end
    else Ok vecNotes in
  match after_down with
  | Ok vecNotes =>
      if event_type_eqb (ev_type event) SDL_KEYUP && (ev_scancode event =? code)%Z
      then
        match noteFound with
        | None => Undefined
        | Some i =>
            match nth_error vecNotes i with
            | Some found =>
                if off found <? on found
                then Ok (assign_at i (set_off found time) vecNotes)
                else Ok vecNotes
            | None => Undefined
            end
        end
      else Ok vecNotes
  | OutOfFuel => OutOfFuel
  | Undefined => Undefined
  end.

Fixpoint key_loop (event : SDL_Event) (time : F) (k : Z) (codes : list Z)
    (vecNotes : list (note F)) : result (list (note F)) :=
  match codes with
  | [] => Ok vecNotes
  | code :: codes' =>
      match key_event event time k code vecNotes with
      | Ok vecNotes' => key_loop event time (k + 1) codes' vecNotes'
      | OutOfFuel => OutOfFuel
      | Undefined => Undefined
      end
  end.

(* One event taken by SDL_PollEvent: [isActive] and [vecNotes] afterwards. *)
Definition handle_event (event : SDL_Event) (time : F) (isActive : bool)
    (vecNotes : list (note F)) : result (bool * list (note F)) :=
  let isActive := if event_type_eqb (ev_type event) SDL_QUIT then false else isActive in
  match key_loop event time 0 notes vecNotes with
  | Ok vecNotes' => Ok (isActive, vecNotes')
  | OutOfFuel => OutOfFuel
  | Undefined => Undefined
  end.

End Synth.

Arguments sequencer F : clear implicits.

(** ** What the mixer adds up and what it sweeps *)

Section Mixer.
Context {F : Type} {N : Num F} {L : Libm F} {P : Pow F}.
Context {R : Type} {G : Rand R}.
Local Open Scope num_scope.
Local Open Scope synth_scope.

(* The flag [sound] leaves in [bNoteFinished], which MakeNoise has set to
   false before the call. *)
Definition note_finished (i : instrument_class) (dTime : F) (n : note F) : bool :=
  let b := construct i in
  match i with
  | instrument_bell | instrument_bell8 | instrument_harmonica =>
      env dTime (inst_env b) (on n) (off n) <=? lit 0.0
  | instrument_drumkick | instrument_drumsnare | instrument_drumhihat =>
      (fMaxLifeTime b >? lit 0.0) && ((dTime - on n) >=? fMaxLifeTime b)
  end.

(* [bNoteFinished] at the end of one turn of the loop of MakeNoise. *)
Definition reported_finished (dTime : F) (n : note F) : bool :=
  match channel n with
  | Some c => note_finished c dTime n
  | None => false
  end.

(* [dSound] of one turn of the loop of MakeNoise. *)
Definition note_sample (fuel : nat) (dTime : F) (n : note F) : M R F :=
  match channel n with
  | Some c => s <- sound c fuel dTime n ;; ret (fst s)
  | None => ret (lit 0)
  end.

(* The samples of the notes of a registry, in its order. *)
Fixpoint note_samples (fuel : nat) (dTime : F) (vecNotes : list (note F))
    : M R (list F) :=
  match vecNotes with
  | [] => ret []
  | n :: rest =>
      s <- note_sample fuel dTime n ;;
      ss <- note_samples fuel dTime rest ;;
      ret (s :: ss)
  end.

(* The sum of a list of samples, added from the left to 0.0. *)
Definition sum_samples (l : list F) : F := fold_left fadd l (lit 0.0).

(* A note as one turn of the loop of MakeNoise leaves it. *)
Definition flagged (dTime : F) (n : note F) : note F :=
  if reported_finished dTime n then set_active n false else n.

(* Render ticks that follow one another with no event of the keyboard in
   between: the registry and the generator before and after. *)
Inductive ticks (fuel : nat) : list (note F) -> R -> list (note F) -> R -> Prop :=
| ticks_none v r : ticks fuel v r v r
| ticks_more t v r out v' r' v'' r'' :
    MakeNoise fuel t v r = Ok ((out, v'), r') ->
    ticks fuel v' r' v'' r'' ->
    ticks fuel v r v'' r''.

End Mixer.

(** ** Envelopes over the rationals *)

Definition exact_env (a d s r st : Q) : envelope_adsr exact :=
  {| dAttackTime := Some a; dDecayTime := Some d; dSustainAmplitude := Some s;
     dReleaseTime := Some r; dStartAmplitude := Some st |}.

(* The rational value of the double [0.01], the silence floor. *)
Definition floor_level : Q := 5764607523034235 # 576460752303423488.

(* The value of the clamp at the end of [amplitude]. *)
Definition clamp (v : Q) : Q := if Qle_bool v floor_level then 0 else v.

(* The rational value of the double [1.0594630943592952645618252949463]. *)
Definition ratio : Q := 4771397596969315 # 4503599627370496.

(** ** A sequencer with one channel *)

(* The sequencer that [sequencer(120, 4, 4)] builds, given one channel with
   its pattern, at some point of its run. *)
Definition one_channel (acc : float) (beat : Z) (out : list (note float))
    (inst : option instrument_class) (pattern : string) : sequencer float :=
  let q := sequencer_new 120%float 4 4 in
  {| nBeats := nBeats q; nSubBeats := nSubBeats q; fTempo := fTempo q;
     fBeatTime := fBeatTime q; fAccumulate := acc;
     nCurrentBeat := beat; nTotalBeats := nTotalBeats q;
     vecChannel := [ {| instrument := inst; sBeat := pattern |} ];
     vecNotes := out |}.

(* No step of the pattern is a hit. *)
Fixpoint no_hit (s : string) : bool :=
  match s with
  | EmptyString => true
  | String c s' => negb (Ascii.eqb c "X") && no_hit s'
  end.

(* The note that [Update] emits for a channel. *)
Definition sequencer_note (inst : option instrument_class) : note float :=
  {| id := 64; on := 0%float; off := 0%float; active := true; channel := inst |}.

(** ** Events of the keyboard *)

(* The test of the [find_if] in [main]: the note of key [k] on the harmonica. *)
Definition is_key_note {F : Type} (k : Z) (item : note F) : bool :=
  (id item =? k + 64)%Z && channel_is item instHarm.

Definition key_down (code : Z) : SDL_Event :=
  {| ev_type := SDL_KEYDOWN; ev_scancode := code; ev_repeat := 0 |}.

Definition key_up (code : Z) : SDL_Event :=
  {| ev_type := SDL_KEYUP; ev_scancode := code; ev_repeat := 0 |}.

(** ** A libm and a rand() to run the model with

    The source links against the C library; these closed instances stand for
    it when a run needs one: the first terms of the series of the sine and
    of the arc sine, a remainder from the truncated quotient, powers by
    repeated multiplication, and the generator of the C standard. *)

Definition Z_of_float (x : float) : Z :=
  match Prim2SF x with
  | S754_finite s m e =>
      let v := if (0 <=? e)%Z then (Zpos m * 2 ^ e)%Z else (Zpos m / 2 ^ (- e))%Z in
      if s then (- v)%Z else v
  | _ => 0%Z
  end.

Fixpoint pow_nat (b : float) (n : nat) : float :=
  match n with
  | O => 1%float
  | S n' => (b * pow_nat b n')%float
  end.

Definition run_libm : Libm float :=
  {| sin := fun x => (x - x * x * x / 6 + x * x * x * x * x / 120)%float;
     asin := fun x => (x + x * x * x / 6)%float;
     fmod := fun x y => (x - y * float_of_Z (Z_of_float (x / y)))%float |}.

Definition run_pow : Pow float :=
  fun b e =>
    let n := Z_of_float e in
    if (n <? 0)%Z then (1 / pow_nat b (Z.to_nat (- n)))%float
    else pow_nat b (Z.to_nat n).

Definition run_rand : Rand Z :=
  {| rand := fun s =>
       let s' := ((s * 1103515245 + 12345) mod 2147483648)%Z in
       ((s' / 65536) mod 32768, s')%Z;
     RAND_MAX := 32767 |}.

(** ** A [pow] that rounds as a double does

    libm is not part of the source.  Where a value of [scale] on doubles has
    to be computed, [pow] is taken to be correctly rounded: the double
    nearest to the exact power, ties to even, with the underflow to the
    subnormal numbers and to 0 and the overflow to an infinity of binary64.
    Big integers keep the exact power computable for exponents of some
    thousands. *)

(* [x * 2^k], and [x] for a negative [k]. *)
Definition big_shiftl (x : bigN) (k : Z) : bigN :=
  BigN.shiftl x (BigN.of_N (Z.to_N k)).

(* The double nearest to [num / den], ties to even, for [0 < num] and
   [0 < den]: [lb] is the position of the leading bit of the quotient, [e]
   the weight of the last bit that a double keeps there (never below that of
   the subnormal numbers, 2^-1074), [q] the quotient by [2^e] and [r] its
   remainder, which decides the rounding; a value of 2^1024 or more becomes
   an infinity in [SF2Prim]. *)
Definition nearest (num den : bigN) : float :=
  let g := (BigN.to_Z (BigN.log2 num) - BigN.to_Z (BigN.log2 den))%Z in
  let lb :=
    if BigN.leb (big_shiftl den g) (big_shiftl num (- g)) then g else (g - 1)%Z in
  let e := Z.max (lb - 52) (-1074) in
  let n' := big_shiftl num (- e) in
  let d' := big_shiftl den e in
  let q := BigN.div n' d' in
  let r := BigN.modulo n' d' in
  let q' :=
    match BigN.compare (BigN.mul 2 r) d' with
    | Lt => q
    | Eq => if BigN.even q then q else BigN.succ q
    | Gt => BigN.succ q
    end in
  match BigN.to_Z q' with
  | Zpos m => SF2Prim (S754_finite false m e)
  | _ => 0%float
  end.

(* [pow(b, y)] for a positive finite [b] and an integer [y]: the double
   nearest to the exact power [(m * 2^e)^n].  Other arguments do not occur
   in the program and are given a NaN. *)
Definition nearest_pow : Pow float :=
  fun b y =>
    let n := Z_of_float y in
    match Prim2SF b with
    | S754_finite false m e =>
        if PrimFloat.eqb (float_of_Z n) y then
          let p := BigN.pow_N (BigN.of_pos m) (Z.abs_N n) in
          let k := (e * Z.abs n)%Z in
          let num := big_shiftl p k in
          let den := big_shiftl 1%bigN (- k) in
          if (0 <=? n)%Z then nearest num den else nearest den num
        else nan
    | _ => nan
    end.

(* [x] is a positive normal double below 2^1021, of value [q]. *)
Definition normal_double (x : float) (q : Q) : Prop :=
  exists (m : positive) (e : Z),
    Prim2SF x = S754_finite false m e /\ digits2_pos m = 53%positive
    /\ (e <= 968)%Z /\ q == inject_Z (Zpos m) * 2 ^ e.

(* [pow] returns the power [ratio ^ n] of [scale] as such a double, of
   value [p], with a relative error of at most [u]. *)
Definition pow_accurate {P : Pow float} (n : Z) (u p : Q) : Prop :=
  normal_double (pow (lit 1.0594630943592952645618252949463) (of_int n)) p
  /\ Qabs (p - ratio ^ n) <= u * ratio ^ n.

(** ** The counter of the analogue saw *)

Section SawCounter.
Context {F : Type} {N : Num F}.

(* [n] after [turns] turns of the loop of OSC_SAW_ANA, each of which ends
   with [n++]. *)
Fixpoint saw_counter (turns : nat) (n : F) : F :=
  match turns with
  | O => n
  | S turns' => saw_counter turns' (fadd n (lit 1.0))
  end.
End SawCounter.

(** ** The envelope as a function of the age of the note *)

(* The amplitude of a held note of age [life], before the clamp: the attack
   ramp, the decay ramp, the sustain level. *)
Definition held_value (a d s st life : Q) : Q :=
  if Qle_bool life a then life / a * st
  else if Qle_bool life (a + d) then (life - a) / d * (s - st) + st
  else s.

(* The amplitude of a released note, before the clamp, [since] seconds after
   its release at the age [life]. *)
Definition released_value (a d s r st life since : Q) : Q :=
  since / r * (0 - held_value a d s st life) + held_value a d s st life.

(* The rational value of the double [0.95], the sustain of the Harmonica. *)
Definition sustain_harmonica : Q := 4278419646001971 # 4503599627370496.

(* A note over the rationals. *)
Definition exact_note (i : Z) (on_ off_ : Q) (act : bool)
    (c : option instrument_class) : note exact :=
  {| id := i; on := Some on_; off := Some off_; active := act; channel := c |}.

(** ** Voices and the notes of the sequencer *)

(* The notes of key [k] on the harmonica that a registry holds. *)
Definition voices {F : Type} (k : Z) (v : list (note F)) : nat :=
  List.length (filter (is_key_note k) v).

Section SequencerDefs.
Context {F : Type} {N : Num F}.

(* What [Update] makes of a note for one of the channels [chs]. *)
Definition emitted (chs : list sequencer_channel) (x : note F) : Prop :=
  id x = 64%Z /\ active x = true /\ on x = lit 0.0 /\ off x = lit 0.0
  /\ exists ch, In ch chs /\ channel x = instrument ch.

(* The step that the next turn of the loop of [Update] moves to. *)
Definition next_beat (q : sequencer F) : Z :=
  if (nCurrentBeat q + 1 >=? nTotalBeats q)%Z then 0%Z else (nCurrentBeat q + 1)%Z.
End SequencerDefs.

(** ** The audio callback *)

(* The conversion of a [double] to the [float] of the output stream. *)
Class Narrow (F S : Type) : Type := narrow : F -> S.

(* struct Data; [sampleCount] is a uint64_t. *)
Record Data (F : Type) : Type := {
  sampleCount : Z;
  time : F
}.

Section Callback.
Context {F : Type} {N : Num F} {L : Libm F} {P : Pow F}.
Context {R : Type} {G : Rand R}.
Context {Sample : Type} {W : Narrow F Sample}.
Local Open Scope num_scope.
Local Open Scope synth_scope.

(* Data's default member initialisers. *)
Definition Data_default : Data F := {| sampleCount := 0; time := lit 0.0 |}.

(* The loop of audioCallback, with [turns] turns left from [sid] on: the
   last time, the samples written to [fstream] (left and right of each
   frame, in order) and the registry.  [*sampleCount + sid] is a sum of
   uint64_t, converted to [double] for the division; on doubles [of_int] is
   that conversion for counts below 2^63. *)
Fixpoint audioCallback_loop (fuel : nat) (turns : nat) (sid : Z) (count : Z)
    (last : F) (fstream : list Sample) (vecNotes : list (note F))
    : M R (F * list Sample * list (note F)) :=
  match turns with
  | O => ret (last, fstream, vecNotes)
  | S turns' =>
      let time := of_int ((count + sid) mod 2 ^ 64) / lit 44100.0 in
      p <- MakeNoise fuel time vecNotes ;;
      let value := fst p in
      audioCallback_loop fuel turns' (sid + 1) count time
        (fstream ++ [narrow value; narrow value]) (snd p)
  end.

(* audioCallback: [data], the samples written and the registry afterwards.
   [length / 8] is a division of [int]s, which truncates. *)
Definition audioCallback (fuel : nat) (data : Data F) (length : Z)
    (vecNotes : list (note F)) : M R (Data F * list Sample * list (note F)) :=
  p <- audioCallback_loop fuel (Z.to_nat (length ÷ 8)) 0 (sampleCount data)
         (time data) [] vecNotes ;;
  ret ({| sampleCount := (sampleCount data + length ÷ 8) mod 2 ^ 64;
          time := fst (fst p) |},
       snd (fst p), snd p).

End Callback.

(* Rounding to binary32, to the nearest with ties to even. *)
Definition run_narrow : Narrow float spec_float :=
  fun x =>
    match Prim2SF x with
    | S754_finite s m e => binary_round 24 128 s m e
    | sf => sf
    end.

(* A libm over the rationals to run the model with: the first terms of the
   series, and a remainder that is left undefined. *)
Definition run_libm_exact : Libm exact :=
  {| sin := fun x => fsub x (fdiv (fmul (fmul x x) x) (Some 6%Q));
     asin := fun x => fadd x (fdiv (fmul (fmul x x) x) (Some 6%Q));
     fmod := fun _ _ => None |}.

Unset Implicit Arguments.

(** * Properties *)

(** ** The envelope *)

Lemma lit_zero : lit (F:=exact) 0 = Some 0%Q.
Proof. reflexivity. Qed.

Lemma lit_floor : lit (F:=exact) 0.01 = Some floor_level.
Proof. vm_compute. reflexivity. Qed.

Lemma Qle_bool_false (x y : Q) : Qle_bool x y = false <-> y < x.
Proof.
  split; intro H.
  - apply Qnot_le_lt. intro Hle. apply Qle_bool_iff in Hle. congruence.
  - destruct (Qle_bool x y) eqn:E; trivial.
    apply Qle_bool_iff in E. exfalso. apply (Qlt_not_le _ _ H E).
Qed.

Lemma Qeq_bool_false (x y : Q) : ~ x == y -> Qeq_bool x y = false.
Proof.
  intro H. destruct (Qeq_bool x y) eqn:E; trivial.
  apply Qeq_bool_iff in E. contradiction.
Qed.

(* Unfolds the arithmetic of [exact] in a goal about [amplitude]. *)
Ltac exact_arith :=
  unfold env, amplitude;
  rewrite ?lit_zero, ?lit_floor;
  cbv beta iota zeta delta
    [fadd fsub fmul fdiv fle flt exact_num exact_lift2 exact_div exact_le
     exact_lt exact_env dAttackTime dDecayTime dSustainAmplitude dReleaseTime
     dStartAmplitude].

(* Settles a test whose outcome follows from the hypotheses. *)
Ltac settle_test :=
  match goal with
  | |- context [Qle_bool ?x ?y] =>
      first [ replace (Qle_bool x y) with true
                by (symmetry; apply Qle_bool_iff; lra)
            | replace (Qle_bool x y) with false
                by (symmetry; apply Qle_bool_false; lra) ]
  | |- context [Qeq_bool ?x ?y] =>
      first [ replace (Qeq_bool x y) with false
                by (symmetry; apply Qeq_bool_false; lra)
            | replace (Qeq_bool x y) with true
                by (symmetry; apply Qeq_bool_iff; lra) ]
  end; cbv beta iota zeta delta [negb andb].

Lemma clamp_out (v : Q) :
  (if Qle_bool v floor_level then Some 0%Q else Some v) = Some (clamp v).
Proof. unfold clamp. destruct (Qle_bool v floor_level); reflexivity. Qed.

#[export] Instance clamp_proper : Proper (Qeq ==> Qeq) clamp.
Proof.
  intros x y H. unfold clamp. rewrite H.
  destruct (Qle_bool y floor_level); [reflexivity | exact H].
Qed.

Lemma floor_level_pos : 0 < floor_level.
Proof. reflexivity. Qed.

Lemma clamp_low (v : Q) : v <= floor_level -> clamp v = 0.
Proof. intro H. unfold clamp. apply Qle_bool_iff in H. rewrite H. reflexivity. Qed.

Lemma clamp_mono (x y : Q) : x <= y -> clamp x <= clamp y.
Proof.
  intro H. pose proof floor_level_pos as Hf. unfold clamp.
  destruct (Qle_bool x floor_level) eqn:Ex; destruct (Qle_bool y floor_level) eqn:Ey;
    rewrite ?Qle_bool_iff, ?Qle_bool_false in *; lra.
Qed.

(* The last statement of [amplitude], in any arithmetic. *)
Lemma amplitude_floor {F : Type} {N : Num F} (e : envelope_adsr F) (t on_ off_ : F) :
  amplitude e t on_ off_ = lit 0.0
  \/ fle (amplitude e t on_ off_) (lit 0.01) = false.
Proof.
  unfold amplitude.
  match goal with
  | |- context [if fle ?x _ then _ else _] => destruct (fle x (lit 0.01)) eqn:E
  end.
  - left. reflexivity.
  - right. exact E.
Qed.

Lemma amplitude_clamped (e : envelope_adsr exact) (t on_ off_ : exact) (v : Q) :
  amplitude e t on_ off_ = Some v -> v = 0 \/ floor_level < v.
Proof.
  unfold amplitude. rewrite lit_zero, lit_floor.
  match goal with
  | |- (if fle ?x _ then _ else _) = _ -> _ => destruct x as [q|]
  end; cbn [fle exact_num exact_le].
  - destruct (Qle_bool q floor_level) eqn:E; intro H; injection H as <-.
    + left. reflexivity.
    + right. apply Qle_bool_false. exact E.
  - discriminate.
Qed.

Section EnvelopeOnDoubles.
Local Open Scope float_scope.

(** C1, as stated, fails on the envelope that [envelope_adsr()] builds: with
    on = 0 and off = 0 the test [dTimeOn > dTimeOff] is false, the note is in
    the released regime with a release amplitude of 0, and the amplitude is 0
    at t = attackTime (where startAmplitude is 1) and at t = 100 (where
    sustainAmplitude is 1), on doubles and over the rationals alike. *)
Lemma on0_off0_is_released :
  let e := envelope_adsr_default (F:=float) in
  PrimFloat.ltb 0 0 = false
  /\ amplitude e 0 0 0 = 0
  /\ amplitude e (dAttackTime e) 0 0 = 0
  /\ PrimFloat.eqb (amplitude e (dAttackTime e) 0 0) (dStartAmplitude e) = false
  /\ amplitude e 100 0 0 = 0
  /\ PrimFloat.eqb (amplitude e 100 0 0) (dSustainAmplitude e) = false
  /\ amplitude (F:=exact) envelope_adsr_default (lit 100) (lit 0) (lit 0) = Some 0%Q
  /\ dSustainAmplitude (F:=exact) envelope_adsr_default = Some 1%Q.
Proof. vm_compute. repeat split. Qed.

(* Divisions by a phase of length 0.  The Harmonica and the Drum Snare
   (attack time 0), held and asked at t = on, divide 0 by 0 and return a
   NaN; the Drum Kick (release time 0), released, divides by 0 at every time
   and returns a NaN. *)
Lemma zero_phase_divides_by_zero :
  PrimFloat.is_nan (amplitude (inst_env (construct instHarm)) 1 1 0) = true
  /\ amplitude (F:=exact) (inst_env (construct instHarm)) (lit 1) (lit 1) (lit 0) = None
  /\ PrimFloat.is_nan (amplitude (inst_env (construct instSnare)) 1 1 0) = true
  /\ PrimFloat.is_nan (amplitude (inst_env (construct instKick)) 2 0 1) = true
  /\ amplitude (F:=exact) (inst_env (construct instKick)) (lit 2) (lit 0) (lit 1) = None.
Proof. vm_compute. repeat split. Qed.

(** C3, as stated, fails on the envelope of the Drum Kick, whose release time
    is 0: held from 0 to 1, longer than attack and decay, and released at
    T = 1, its amplitude at t = T + releaseTime is a NaN, not 0. *)
Lemma release_time_zero_is_nan :
  let e := inst_env (construct (F:=float) instKick) in
  dReleaseTime e = 0
  /\ PrimFloat.ltb (dAttackTime e + dDecayTime e) (1 - 0) = true
  /\ PrimFloat.is_nan (amplitude e (1 + dReleaseTime e) 0 1) = true
  /\ PrimFloat.eqb (amplitude e (1 + dReleaseTime e) 0 1) 0 = false
  /\ amplitude (F:=exact) (inst_env (construct instKick)) (lit 1) (lit 0) (lit 1) = None.
Proof. vm_compute. repeat split. Qed.

(* On doubles, the envelope of [envelope_adsr()] for a held note (on = 0,
   off = -1): the start amplitude at the end of the attack, the sustain
   amplitude later on; and the Harmonica, whose attack time is 0, half way
   through its decay. *)
Example held_note_on_doubles :
  amplitude envelope_adsr_default 0 0 (-1) = 0
  /\ amplitude envelope_adsr_default 0.1 0 (-1) = 1
  /\ amplitude envelope_adsr_default 100 0 (-1) = 1
  /\ amplitude (inst_env (construct instHarm)) 1.5 1 0 = 0.97499999999999998.
Proof. vm_compute. repeat split. Qed.

End EnvelopeOnDoubles.

(** C1, amended: with attackTime > 0 and decayTime >= 0, a note with
    off < on is in the held regime, where off is not read: its amplitude is
    0 at t = on; at t = on + attackTime it is approximately startAmplitude,
    which is to say startAmplitude (as the clamp at 0.01 leaves it) when
    nothing is rounded, and on doubles, for the envelope of envelope_adsr(),
    1 with on = 0 and 0.99999999999999978 with on = 0.7; and at every
    t > on + attackTime + decayTime it is sustainAmplitude (as the clamp
    leaves it).  amplitude(0,0,0) is 0 when moreover releaseTime <> 0, and
    it is 0 on doubles for the envelope of envelope_adsr(). *)
Theorem amplitude_regimes (a d s r st on_ off_ : Q) :
  0 < a -> 0 <= d -> off_ < on_ ->
  let e := exact_env a d s r st in
  let e' := envelope_adsr_default (F:=float) in
  amplitude e (Some on_) (Some on_) (Some off_) = Some 0
  /\ (exists v, amplitude e (Some (on_ + a)) (Some on_) (Some off_) = Some v
                /\ v == clamp st)
  /\ (forall t, on_ + a + d < t ->
        amplitude e (Some t) (Some on_) (Some off_) = Some (clamp s))
  /\ (forall t off', off' < on_ ->
        amplitude e (Some t) (Some on_) (Some off')
        = amplitude e (Some t) (Some on_) (Some off_))
  /\ (~ r == 0 -> amplitude e (Some 0) (Some 0) (Some 0) = Some 0)
  /\ amplitude e' 0%float 0%float 0%float = 0%float
  /\ amplitude e' (0 + dAttackTime e')%float 0%float (-1)%float = dStartAmplitude e'
  /\ amplitude e' (0.7 + dAttackTime e')%float 0.7%float 0%float
     = 0.99999999999999978%float
  /\ amplitude e' 100%float 0%float (-1)%float = dSustainAmplitude e'.
Proof.
  intros Ha Hd Hoff e e'. subst e e'.
  split; [|split; [|split; [|split; [|split]]]].
  - exact_arith. repeat settle_test. rewrite clamp_out.
    f_equal. apply clamp_low.
    assert (X : (on_ - on_) / a * st == 0) by (field; lra).
    rewrite X. apply Qlt_le_weak, floor_level_pos.
  - exact_arith. repeat settle_test. rewrite clamp_out.
    eexists. split; [reflexivity|]. apply clamp_proper. field. lra.
  - intros t Ht. exact_arith. repeat settle_test. apply clamp_out.
  - intros t off' Hoff'. exact_arith.
    replace (Qle_bool on_ off') with false by (symmetry; apply Qle_bool_false; lra).
    replace (Qle_bool on_ off_) with false by (symmetry; apply Qle_bool_false; lra).
    reflexivity.
  - intros Hr. exact_arith. repeat settle_test. reflexivity.
  - vm_compute. repeat split.
Qed.

Lemma amplitude_regimes_witness :
  amplitude (exact_env (1#10) (1#10) 1 (1#5) 1) (Some 100) (Some 0) (Some (-1))
  = Some (clamp 1)
  /\ amplitude (exact_env (1#10) (1#10) 1 (1#5) 1) (Some 0) (Some 0) (Some 0)
     = Some 0.
Proof.
  assert (Ha : 0 < 1#10) by reflexivity.
  assert (Hd : 0 <= 1#10) by discriminate.
  assert (Ho : -1 < 0) by reflexivity.
  destruct (amplitude_regimes (1#10) (1#10) 1 (1#5) 1 0 (-1) Ha Hd Ho)
    as (_ & _ & H3 & _ & H5 & _).
  split.
  - apply H3. reflexivity.
  - apply H5. discriminate.
Defined.

(** C3, amended: for an envelope whose release time is positive, held until
    the sustain is reached (on <= T and T - on > attackTime + decayTime) and
    released at T, the amplitude is defined and non-increasing on
    [T, T + releaseTime] and is 0 at T + releaseTime.  At every query the
    clamp leaves 0 or a value above 0.01: over the rationals a value that is
    never negative and never in (0, 0.01], on doubles 0 or a value for which
    [<= 0.01] is false. *)
Theorem release_ramp (a d s r st on_ T : Q) :
  0 < r -> on_ <= T -> a + d < T - on_ ->
  let amp t := amplitude (exact_env a d s r st) (Some t) (Some on_) (Some T) in
  (forall t1 t2, T <= t1 -> t1 <= t2 -> t2 <= T + r ->
     exists v1 v2, amp t1 = Some v1 /\ amp t2 = Some v2 /\ v2 <= v1)
  /\ amp (T + r) = Some 0
  /\ (forall (e : envelope_adsr exact) (t on' off' : exact) (v : Q),
        amplitude e t on' off' = Some v ->
        (v = 0 \/ floor_level < v) /\ 0 <= v)
  /\ (forall (e : envelope_adsr float) (t on' off' : float),
        amplitude e t on' off' = 0%float
        \/ PrimFloat.leb (amplitude e t on' off') 0.01 = false).
Proof.
  intros Hr Hon Hlife amp.
  assert (Hamp : forall t, amp t = Some (clamp ((t - T) / r * (0 - s) + s))).
  { intro t. subst amp. cbv beta. exact_arith. repeat settle_test. apply clamp_out. }
  split; [|split; [|split]].
  - intros t1 t2 H1 H12 H2. do 2 eexists. rewrite !Hamp.
    split; [reflexivity|]. split; [reflexivity|].
    assert (U1 : 0 <= (t1 - T) / r) by (apply Qle_shift_div_l; lra).
    assert (U2 : (t2 - T) / r <= 1) by (apply Qle_shift_div_r; lra).
    assert (U12 : (t1 - T) / r <= (t2 - T) / r).
    { unfold Qdiv. apply Qmult_le_compat_r; [lra|].
      apply Qlt_le_weak, Qinv_lt_0_compat, Hr. }
    set (u1 := (t1 - T) / r) in *. set (u2 := (t2 - T) / r) in *.
    destruct (Qlt_le_dec s 0) as [Hs|Hs].
    + rewrite !clamp_low; [lra| |]; pose proof floor_level_pos; nra.
    + apply clamp_mono. nra.
  - rewrite Hamp. f_equal. apply clamp_low.
    assert (X : (T + r - T) / r * (0 - s) + s == 0) by (field; lra).
    rewrite X. apply Qlt_le_weak, floor_level_pos.
  - intros e t on' off' v H. pose proof floor_level_pos.
    destruct (amplitude_clamped e t on' off' v H) as [E|E].
    + split; [left; exact E | subst v; lra].
    + split; [right; exact E | lra].
  - intros e t on' off'. exact (amplitude_floor e t on' off').
Qed.

Lemma release_ramp_witness :
  amplitude (exact_env (1#10) (1#10) 1 (1#5) 1) (Some (1 + (1#5))) (Some 0) (Some 1)
  = Some 0.
Proof.
  assert (Hr : 0 < 1#5) by reflexivity.
  assert (Hon : 0 <= 1) by discriminate.
  assert (Hl : (1#10) + (1#10) < 1 - 0) by reflexivity.
  exact (proj1 (proj2 (release_ramp (1#10) (1#10) 1 (1#5) 1 0 1 Hr Hon Hl))).
Defined.

(** ** The scale *)

(* The exponent of a double is -1074 or more. *)
Lemma double_exponent (x : float) (s : bool) (m : positive) (e : Z) :
  Prim2SF x = S754_finite s m e -> digits2_pos m = 53%positive ->
  (-1074 <= e)%Z.
Proof.
  intros H Hd. pose proof (Prim2SF_valid x) as V. rewrite H in V.
  unfold SpecFloat.valid_binary, bounded, canonical_mantissa, fexp in V.
  apply andb_true_iff in V. destruct V as [V _]. apply Z.eqb_eq in V.
  rewrite Hd in V. change (SpecFloat.emin prec emax) with (-1074)%Z in V. lia.
Qed.

(* The product of 8 and a normal double is exact, short of an overflow. *)
Lemma mul8_normal (x : float) (s : bool) (m : positive) (e : Z) :
  Prim2SF x = S754_finite s m e -> digits2_pos m = 53%positive -> (e <= 968)%Z ->
  Prim2SF (8 * x)%float = S754_finite s m (e + 3).
Proof.
  intros H Hd He. pose proof (double_exponent x s m e H Hd) as Hlo.
  rewrite mul_spec, H.
  change (Prim2SF 8) with (S754_finite false 4503599627370496 (-49)).
  unfold SF64mul, SFmul. cbn [xorb].
  unfold binary_round_aux, shr_fexp.
  cbn [Pos.mul Zdigits2 digits2_pos]. rewrite Hd.
  cbn [Pos.succ]. unfold fexp.
  change (SpecFloat.emin prec emax) with (-1074)%Z. change prec with 53%Z.
  replace (Z.max (105 + (-49 + e) - 53) (-1074) - (-49 + e))%Z with 52%Z by lia.
  cbn -[Z.add Z.max Z.sub Z.leb]. rewrite Hd.
  replace (Z.max (53 + (-49 + e + 52) - 53) (-1074) - (-49 + e + 52))%Z with 0%Z by lia.
  cbn -[Z.add Z.leb].
  replace (-49 + e + 52 <=? emax - 53)%Z with true
    by (symmetry; apply Z.leb_le; change emax with 1024%Z; lia).
  f_equal. lia.
Qed.

Lemma ratio_octave : Qabs (ratio ^ 12 - 2) <= (1 # 1000000000000000) * 2.
Proof. apply Qle_bool_iff. vm_compute. reflexivity. Qed.

Lemma ratio_pos : 0 < ratio.
Proof. reflexivity. Qed.

Lemma ratio_pow_pos (n : Z) : 0 < ratio ^ n.
Proof. apply Qpower_0_lt, ratio_pos. Qed.

Lemma accurate_bounds (n : Z) (u p : Q) :
  Qabs (p - ratio ^ n) <= u * ratio ^ n ->
  ratio ^ n * (1 - u) <= p /\ p <= ratio ^ n * (1 + u).
Proof.
  intro H. apply Qabs_Qle_condition in H. destruct H as [H1 H2]. split; lra.
Qed.

(* [nearest] against the division of binary64 and at the edges of the
   format: ties go to the even neighbour, half the smallest subnormal number
   goes to 0, and 2^1024 is an infinity. *)
Example nearest_rounds_as_binary64 :
  nearest 1 3 = (1 / 3)%float
  /\ nearest 1 10 = 0.1%float
  /\ nearest 9007199254740993 1 = 9007199254740992%float
  /\ nearest 9007199254740995 1 = 9007199254740996%float
  /\ nearest 1 (big_shiftl 1 1074) = 4.9406564584124654e-324%float
  /\ nearest 1 (big_shiftl 1 1075) = 0%float
  /\ nearest 3 (big_shiftl 1 1075) = 9.8813129168249309e-324%float
  /\ nearest (big_shiftl 1 1024) 1 = infinity
  /\ nearest_pow 2%float 10%float = 1024%float
  /\ nearest_pow 1.0594630943592952645618252949463%float (-1)%float
     = (1 / 1.0594630943592952645618252949463)%float
  /\ nearest_pow 1.0594630943592952645618252949463%float 12%float
     = 2.0000000000000009%float.
Proof. vm_compute. repeat split. Qed.

(** C9, as stated, fails at degrees of large magnitude.  On doubles, with a
    correctly rounded [pow], scale(-12906) is 0 while scale(-12894) is
    3.95e-323, eight times the smallest subnormal number, and not 2 * 0;
    and scale(12263) is an infinity, which is no value of
    8 * ratio^degree. *)
Lemma scale_underflows :
  scale (P:=nearest_pow) (-12906) = 0%float
  /\ scale (P:=nearest_pow) (-12894) = 3.9525251667299724e-323%float
  /\ PrimFloat.eqb (scale (P:=nearest_pow) (-12894))
                   (2 * scale (P:=nearest_pow) (-12906))%float = false
  /\ scale (P:=nearest_pow) 12263 = infinity.
Proof.
  assert (H1 : scale (P:=nearest_pow) (-12906) = 0%float)
    by (vm_compute; reflexivity).
  assert (H2 : scale (P:=nearest_pow) (-12894) = 3.9525251667299724e-323%float)
    by (vm_compute; reflexivity).
  split; [exact H1|]. split; [exact H2|]. split.
  - rewrite H1, H2. reflexivity.
  - vm_compute. reflexivity.
Qed.

Section ScaleOnDoubles.
Context {P : Pow float}.

(* Where [pow] returns a normal double, [scale] is 8 times its value. *)
Lemma scale_value (n : Z) (u p : Q) :
  pow_accurate n u p ->
  exists a, Q_of_float (scale (F:=float) n) = Some a /\ a == 8 * p.
Proof.
  intros [(m & e & Hx & Hd & He & Hp) _].
  unfold scale. change (of_int (F:=float) 8) with 8%float.
  change (fmul (F:=float)) with PrimFloat.mul.
  unfold Q_of_float. rewrite (mul8_normal _ false m e Hx Hd He).
  eexists. split; [reflexivity|].
  rewrite Qred_correct, Hp, Qpower_plus by (intro E; discriminate E).
  change (2 ^ 3) with 8. ring.
Qed.

(** C9, amended: on doubles, for every integer degree d, negative ones
    included, at which [pow] returns the powers ratio^d and ratio^(d + 12) as
    positive normal doubles below 2^1021 with a relative error of at most
    u <= 1/1000 (ratio is the double of the constant of the source):
    scale(d) and scale(d + 12) are 8 times these doubles, the product being
    exact; scale(d) is positive and is 8 * ratio^d within the relative error
    u; and scale(d + 12) is 2 * scale(d) within a relative tolerance of
    10^-15 + 3u. *)
Theorem scale_octave (n : Z) (u p p' : Q) :
  0 <= u -> u <= 1 # 1000 ->
  pow_accurate n u p -> pow_accurate (n + 12) u p' ->
  exists a b : Q,
    Q_of_float (scale (F:=float) n) = Some a
    /\ Q_of_float (scale (F:=float) (n + 12)) = Some b
    /\ a == 8 * p /\ b == 8 * p'
    /\ 0 < a
    /\ Qabs (a - 8 * ratio ^ n) <= u * (8 * ratio ^ n)
    /\ Qabs (b - 2 * a) <= ((1 # 1000000000000000) + 3 * u) * (2 * a).
Proof.
  intros Hu0 Hu1 Hn Hn'.
  destruct (scale_value n u p Hn) as (a & Ha & Ea).
  destruct (scale_value (n + 12) u p' Hn') as (b & Hb & Eb).
  exists a, b. split; [exact Ha|]. split; [exact Hb|].
  split; [exact Ea|]. split; [exact Eb|].
  destruct Hn as [_ Hn]. destruct Hn' as [_ Hn'].
  apply accurate_bounds in Hn, Hn'.
  assert (Hr : ~ ratio == 0) by (intro E; discriminate E).
  rewrite Qpower_plus in Hn' by exact Hr.
  pose proof (ratio_pow_pos n) as Hx.
  pose proof ratio_octave as Ho. apply Qabs_Qle_condition in Ho.
  set (x := ratio ^ n) in *. set (k := ratio ^ 12) in *.
  destruct Hn as [Hn1 Hn2]. destruct Hn' as [Hn1' Hn2']. destruct Ho as [Ho1 Ho2].
  assert (Hp : 0 < p) by nra.
  split; [rewrite Ea; lra|].
  split; [rewrite Ea; apply Qabs_Qle_condition; split; lra|].
  rewrite Ea, Eb. apply Qabs_Qle_condition.
  assert (K1 : x * k <= x * (2 + (1 # 1000000000000000) * 2)) by nra.
  assert (K2 : x * (2 - (1 # 1000000000000000) * 2) <= x * k) by nra.
  assert (U1 : x * k * (1 + u) <= x * (2 + (1 # 1000000000000000) * 2) * (1 + u)) by nra.
  assert (U2 : x * (2 - (1 # 1000000000000000) * 2) * (1 - u) <= x * k * (1 - u)) by nra.
  assert (UX : 0 <= x * u) by nra.
  assert (UXX : x * u * u <= x * u * (1 # 1000)) by nra.
  assert (UXX0 : 0 <= x * u * u) by nra.
  split; nra.
Qed.

End ScaleOnDoubles.

(* The hypotheses hold of the correctly rounded [pow] at the degrees 7 and
   19, with u = 2^-53. *)
Lemma scale_octave_witness :
  exists a b : Q,
    Q_of_float (scale (P:=nearest_pow) 7) = Some a
    /\ Q_of_float (scale (P:=nearest_pow) (7 + 12)) = Some b
    /\ a == 8 * (inject_Z 6747775193108402 * 2 ^ (-52))
    /\ b == 8 * (inject_Z 6747775193108405 * 2 ^ (-51))
    /\ 0 < a
    /\ Qabs (a - 8 * ratio ^ 7) <= (1 # 9007199254740992) * (8 * ratio ^ 7)
    /\ Qabs (b - 2 * a)
       <= ((1 # 1000000000000000) + 3 * (1 # 9007199254740992)) * (2 * a).
Proof.
  apply (scale_octave (P:=nearest_pow) 7 (1 # 9007199254740992)).
  - discriminate.
  - discriminate.
  - split.
    + exists 6747775193108402%positive, (-52)%Z.
      split; [vm_compute; reflexivity|]. split; [reflexivity|].
      split; [discriminate | reflexivity].
    + apply Qle_bool_iff. vm_compute. reflexivity.
  - split.
    + exists 6747775193108405%positive, (-51)%Z.
      split; [vm_compute; reflexivity|]. split; [reflexivity|].
      split; [discriminate | reflexivity].
    + apply Qle_bool_iff. vm_compute. reflexivity.
Defined.

Close Scope Q_scope.

(** ** The mixer *)

Lemma bind_ok {R A B : Type} (m : M R A) (k : A -> M R B) {r r' : R} {a : A} :
  m r = Ok (a, r') -> bind m k r = k a r'.
Proof. intro H. unfold bind. rewrite H. reflexivity. Qed.

Section MixerFacts.
Context {F : Type} {N : Num F} {L : Libm F} {P : Pow F}.
Context {R : Type} {G : Rand R}.
Local Open Scope num_scope.

(* Every waveform but the analogue saw returns, whatever the fuel. *)
Lemma osc_plain fuel dTime dHertz nType dLFOHertz dLFOAmplitude dCustom (r : R) :
  (nType =? OSC_SAW_ANA)%Z = false ->
  exists v r', osc fuel dTime dHertz nType dLFOHertz dLFOAmplitude dCustom r = Ok (v, r').
Proof.
  intro H. unfold osc. rewrite H.
  repeat match goal with
         | |- context [if ?c then _ else _] => destruct c
         end; unfold ret; try (do 2 eexists; reflexivity).
  destruct (rand r) as [x r']. do 2 eexists; reflexivity.
Qed.

Variable fuel : nat.
Hypothesis sound_total :
  forall i t n (r : R),
    exists s r', sound i fuel t n r = Ok ((s, note_finished i t n), r').

Lemma note_sample_spec t (n : note F) (r : R) :
  exists s r',
    note_sample fuel t n r = Ok (s, r')
    /\ match channel n with
       | Some c => sound c fuel t n
       | None => ret (lit 0, false)
       end r = Ok ((s, reported_finished t n), r').
Proof.
  unfold note_sample, reported_finished. destruct (channel n) as [c|].
  - destruct (sound_total c t n r) as (s & r' & Hs).
    exists s, r'. split; [|exact Hs]. rewrite (bind_ok _ _ Hs). reflexivity.
  - exists (lit 0), r. split; reflexivity.
Qed.

Lemma MakeNoise_loop_spec t (v : list (note F)) :
  forall acc (r : R),
    exists ss r',
      note_samples fuel t v r = Ok (ss, r')
      /\ MakeNoise_loop fuel t v acc r
         = Ok ((fold_left fadd ss acc, map (flagged t) v), r').
Proof.
  induction v as [|n v IH]; intros acc r.
  - exists [], r. split; reflexivity.
  - cbn [note_samples MakeNoise_loop].
    destruct (note_sample_spec t n r) as (s & r1 & Hs & Hl).
    destruct (IH (acc + s) r1) as (ss & r2 & H1 & H2).
    rewrite (bind_ok _ _ Hs), (bind_ok _ _ Hl).
    rewrite (bind_ok _ _ H1), (bind_ok _ _ H2).
    exists (s :: ss), r2. split; reflexivity.
Qed.

Lemma sweep_flagged t (v : list (note F)) :
  safe_remove (@active F) (map (flagged t) v)
  = filter (fun n => active n && negb (reported_finished t n)) v.
Proof.
  induction v as [|n v IH]; [reflexivity|].
  cbn [map safe_remove filter]. rewrite IH. unfold flagged.
  destruct (reported_finished t n); cbn [set_active active negb].
  - rewrite andb_false_r. reflexivity.
  - rewrite andb_true_r. destruct (active n); reflexivity.
Qed.

Lemma MakeNoise_spec t (v : list (note F)) (r : R) :
  exists ss r',
    note_samples fuel t v r = Ok (ss, r')
    /\ MakeNoise fuel t v r
       = Ok ((sum_samples ss * lit 0.2,
              filter (fun n => active n && negb (reported_finished t n)) v), r').
Proof.
  destruct (MakeNoise_loop_spec t v (lit 0.0) r) as (ss & r' & H1 & H2).
  exists ss, r'. split; [exact H1|].
  unfold MakeNoise. rewrite (bind_ok _ _ H2). cbn [fst snd].
  rewrite sweep_flagged. reflexivity.
Qed.

Lemma ticks_shrink v r v' r' :
  ticks fuel v r v' r' -> forall n, In n v' -> In n v.
Proof.
  induction 1 as [|t v r out v1 r1 v2 r2 Hstep _ IH]; intros n Hn; [exact Hn|].
  destruct (MakeNoise_spec t v r) as (ss & r' & _ & H).
  rewrite H in Hstep. injection Hstep as _ <- _.
  specialize (IH n Hn). apply filter_In in IH. exact (proj1 IH).
Qed.


End MixerFacts.

Section MixerOnDoubles.
Context {L : Libm float} {P : Pow float}.
Context {R : Type} {G : Rand R}.
Local Open Scope float_scope.

Lemma saw_loop_done (fuel : nat) (dFreq dCustom n dOutput : float) :
  PrimFloat.ltb n dCustom = false ->
  saw_loop fuel dFreq dCustom n dOutput = Ok dOutput.
Proof.
  intro H. destruct fuel; cbn [saw_loop];
    change (flt n dCustom) with (PrimFloat.ltb n dCustom); rewrite H; reflexivity.
Qed.

(* The loop of the Harmonica's saw, [dCustom = 100], ends after 99 turns. *)
Lemma saw_loop_harmonica (k : nat) (dFreq : float) :
  exists v, saw_loop (99 + k) dFreq (lit 100) (lit 1.0) (lit 0.0) = Ok v.
Proof.
  vm_compute. eexists.
  exact (saw_loop_done k dFreq 100 100 _ eq_refl).
Qed.

Lemma osc_saw_harmonica k dTime dHertz dLFOHertz dLFOAmplitude (r : R) :
  exists v r',
    osc (99 + k) dTime dHertz OSC_SAW_ANA dLFOHertz dLFOAmplitude (lit 100) r
    = Ok (v, r').
Proof.
  unfold osc. cbn [Z.eqb OSC_SAW_ANA OSC_SINE OSC_SQUARE OSC_TRIANGLE Pos.eqb].
  match goal with
  | |- context [saw_loop _ ?f _ _ _] => destruct (saw_loop_harmonica k f) as [v Hv]
  end.
  unfold bind, lift. rewrite Hv. do 2 eexists. reflexivity.
Qed.

(* Runs the next call of [osc] of a [sound]. *)
Ltac run_osc :=
  match goal with
  | |- context [bind (osc (99 + ?j) ?a ?b OSC_SAW_ANA ?d ?e ?f) ?k ?r] =>
      let H := fresh "H" in
      destruct (osc_saw_harmonica j a b d e r) as (? & ? & H);
      rewrite (bind_ok _ k H); cbv beta
  | |- context [bind (osc ?fu ?a ?b ?c ?d ?e ?f) ?k ?r] =>
      let H := fresh "H" in
      destruct (osc_plain fu a b c d e f r eq_refl) as (? & ? & H);
      rewrite (bind_ok _ k H); cbv beta
  end.

(* With 99 turns of fuel or more every instrument returns its sample, and
   the flag it reports is [note_finished]. *)
Lemma sound_total_float (k : nat) (i : instrument_class) (t : float)
    (n : note float) (r : R) :
  exists s r', sound i (99 + k) t n r = Ok ((s, note_finished i t n), r').
Proof.
  destruct i; unfold sound, osc_default, note_finished;
    repeat run_osc; do 2 eexists; reflexivity.
Qed.

(* The sample of the Harmonica: its amplitude times the sum of its
   oscillators times its volume. *)
Lemma sound_harmonica_float (k : nat) (t : float) (n : note float) (r : R) :
  exists dSound r',
    sound instHarm (99 + k) t n r
    = Ok ((amplitude (inst_env (construct instHarm)) t (on n) (off n) * dSound * 0.3,
           note_finished instHarm t n), r').
Proof.
  unfold sound, instHarm, note_finished. repeat run_osc. do 2 eexists. reflexivity.
Qed.

(** C4: a render tick returns (with fuel for 99 turns of the saw loop or
    more); the flag an instrument reports for a note is [reported_finished];
    the registry the tick leaves holds the notes that were active and not
    reported finished, so a note reported finished is not in it; and every
    note of the registry of any later tick, with no key pressed in between,
    is a note that this tick did not report finished: no note is reported
    finished on two ticks. *)
Theorem finished_notes_are_swept (k : nat) (t : float) (v : list (note float)) (r : R) :
  (forall n c r0, channel n = Some c ->
     exists s r1, sound c (99 + k) t n r0 = Ok ((s, reported_finished t n), r1))
  /\ exists out v' r',
       MakeNoise (99 + k) t v r = Ok ((out, v'), r')
       /\ v' = filter (fun n => active n && negb (reported_finished t n)) v
       /\ (forall n, In n v -> reported_finished t n = true -> ~ In n v')
       /\ (forall v'' r'', ticks (99 + k) v' r' v'' r'' ->
             forall n, In n v'' -> In n v /\ reported_finished t n = false).
Proof.
  split.
  - intros n c r0 Hc. unfold reported_finished. rewrite Hc.
    apply sound_total_float.
  - destruct (MakeNoise_spec (99 + k) (sound_total_float k) t v r) as (ss & r' & _ & H).
    do 3 eexists. split; [exact H|]. split; [reflexivity|]. split.
    + intros n _ Hfin Hin. apply filter_In in Hin. destruct Hin as [_ Hin].
      rewrite Hfin, andb_false_r in Hin. discriminate Hin.
    + intros v'' r'' Hticks n Hin.
      apply (ticks_shrink (99 + k) (sound_total_float k) _ _ _ _ Hticks) in Hin.
      apply filter_In in Hin. destruct Hin as [Hin Hb]. split; [exact Hin|].
      apply andb_true_iff in Hb. destruct Hb as [_ Hb].
      apply negb_true_iff. exact Hb.
Qed.

(** C5: MakeNoise(t) returns the sum of the samples of the notes of the
    registry at time t, taken in the order of the registry and added from the
    left to 0.0, times 0.2; with an empty registry it returns exactly 0.0 at
    every time, and leaves the registry empty. *)
Theorem MakeNoise_mixes (k : nat) (t : float) (v : list (note float)) (r : R) :
  (exists ss v' r',
     note_samples (99 + k) t v r = Ok (ss, r')
     /\ MakeNoise (99 + k) t v r = Ok ((sum_samples ss * 0.2, v'), r'))
  /\ (forall fuel, MakeNoise fuel t [] r = Ok ((0, []), r)).
Proof.
  split.
  - destruct (MakeNoise_spec (99 + k) (sound_total_float k) t v r) as (ss & r' & H1 & H2).
    exists ss. do 2 eexists. split; [exact H1 | exact H2].
  - intro fuel. reflexivity.
Qed.


End MixerOnDoubles.


(** ** The keyboard *)

Section KeyboardFacts.
Context {F : Type} {N : Num F}.

Lemma key_event_other (event : SDL_Event) (time : F) (k code : Z) (v : list (note F)) :
  (ev_scancode event =? code)%Z = false ->
  key_event event time k code v = Ok v.
Proof.
  intro H. unfold key_event. rewrite H, !andb_false_r. cbn [andb]. reflexivity.
Qed.

Lemma key_loop_other (event : SDL_Event) (time : F) (codes : list Z) :
  forall (k : Z) (v : list (note F)),
    forallb (fun code => negb (ev_scancode event =? code)%Z) codes = true ->
    key_loop event time k codes v = Ok v.
Proof.
  induction codes as [|code codes IH]; intros k v H; [reflexivity|].
  cbn [forallb] in H. apply andb_true_iff in H. destruct H as [H1 H2].
  cbn [key_loop]. rewrite key_event_other by (apply negb_true_iff; exact H1).
  apply IH. exact H2.
Qed.

Lemma key_loop_split (event : SDL_Event) (time : F) (code : Z) (post : list Z) :
  forall (pre : list Z) (k : Z) (v : list (note F)),
    ev_scancode event = code ->
    forallb (fun c => negb (code =? c)%Z) pre = true ->
    forallb (fun c => negb (code =? c)%Z) post = true ->
    key_loop event time k (pre ++ code :: post) v
    = key_event event time (k + Z.of_nat (List.length pre)) code v.
Proof.
  intros pre k v Hc; revert k v; subst code.
  induction pre as [|c pre IH]; intros k v Hpre Hpost.
  - cbn [app key_loop List.length Z.of_nat]. rewrite Z.add_0_r.
    destruct (key_event event time k (ev_scancode event) v); try reflexivity.
    apply key_loop_other. exact Hpost.
  - cbn [forallb] in Hpre. apply andb_true_iff in Hpre. destruct Hpre as [H1 H2].
    cbn [app key_loop]. rewrite key_event_other by (apply negb_true_iff; exact H1).
    rewrite IH by assumption. f_equal. cbn [List.length]. lia.
Qed.

(* The loop over the keys comes down to the one key that the event names. *)
Lemma key_loop_at (event : SDL_Event) (time : F) (k : nat) (code : Z)
    (v : list (note F)) :
  nth_error notes k = Some code -> ev_scancode event = code ->
  key_loop event time 0 notes v = key_event event time (Z.of_nat k) code v.
Proof.
  intros Hk Hc.
  assert (Hsplit : notes = firstn k notes ++ code :: skipn (S k) notes
                   /\ List.length (firstn k notes) = k
                   /\ forallb (fun c => negb (code =? c)%Z) (firstn k notes) = true
                   /\ forallb (fun c => negb (code =? c)%Z) (skipn (S k) notes) = true).
  { unfold notes in *.
    do 7 (destruct k as [|k];
          [ injection Hk as <-; repeat split; reflexivity | cbn [nth_error] in Hk ]).
    destruct k; discriminate Hk. }
  destruct Hsplit as (E & Hlen & Hpre & Hpost).
  rewrite E at 1. rewrite (key_loop_split event time _ _ _ 0%Z v Hc Hpre Hpost).
  rewrite Hlen. reflexivity.
Qed.

Lemma find_if_app {T : Type} (f : T -> bool) (pre post : list T) (x : T) :
  find_if f pre = None -> f x = true ->
  find_if f (pre ++ x :: post) = Some (List.length pre).
Proof.
  induction pre as [|y pre IH]; intros Hpre Hx; cbn [app find_if List.length].
  - rewrite Hx. reflexivity.
  - cbn [find_if] in Hpre. destruct (f y); [discriminate Hpre|].
    destruct (find_if f pre); [discriminate Hpre|].
    rewrite IH by trivial. reflexivity.
Qed.

Lemma find_if_none_app {T : Type} (f : T -> bool) (pre post : list T) :
  find_if f pre = None -> find_if f post = None -> find_if f (pre ++ post) = None.
Proof.
  induction pre as [|y pre IH]; intros Hpre Hpost; [exact Hpost|].
  cbn [app find_if] in *. destruct (f y); [discriminate Hpre|].
  destruct (find_if f pre); [discriminate Hpre|].
  rewrite IH by trivial. reflexivity.
Qed.

Lemma nth_error_middle {T : Type} (pre post : list T) (x : T) :
  nth_error (pre ++ x :: post) (List.length pre) = Some x.
Proof. induction pre as [|y pre IH]; [reflexivity | exact IH]. Qed.

Lemma assign_at_middle {T : Type} (pre post : list T) (x y : T) :
  assign_at (List.length pre) y (pre ++ x :: post) = pre ++ y :: post.
Proof.
  induction pre as [|z pre IH]; [reflexivity|].
  cbn [List.length app assign_at]. rewrite IH. reflexivity.
Qed.

Lemma In_assign_at {T : Type} (y : T) (v : list T) :
  forall (i : nat) (m : T), In m (assign_at i y v) -> m = y \/ In m v.
Proof.
  induction v as [|z v IH]; intros i m H; [destruct i; destruct H|].
  destruct i as [|i]; cbn [assign_at] in H; destruct H as [<-|H].
  - left. reflexivity.
  - right. right. exact H.
  - right. left. reflexivity.
  - destruct (IH i m H) as [E|E]; [left; exact E | right; right; exact E].
Qed.

(* Every note that the keyboard puts into the registry is active, and it
   clears the flag of none. *)
Lemma key_event_active (event : SDL_Event) (time : F) (k code : Z)
    (v v' : list (note F)) :
  key_event event time k code v = Ok v' ->
  (forall m, In m v -> active m = true) -> forall m, In m v' -> active m = true.
Proof.
  unfold key_event. intros H Hinv.
  set (found := find_if _ v) in H.
  set (down := event_type_eqb (ev_type event) SDL_KEYDOWN
               && (ev_scancode event =? code)%Z && (ev_repeat event =? 0)%Z) in H.
  set (up := event_type_eqb (ev_type event) SDL_KEYUP && (ev_scancode event =? code)%Z) in H.
  match type of H with
  | match ?a with _ => _ end = _ => destruct a as [w| |] eqn:Ha; try discriminate H
  end.
  assert (Hw : forall m, In m w -> active m = true).
  { destruct down; [|injection Ha as <-; exact Hinv].
    destruct found as [i|].
    - destruct (nth_error v i) as [x|] eqn:Hn; [|discriminate Ha].
      destruct (flt (on x) (off x)); injection Ha as <-; [|exact Hinv].
      intros m Hm. apply In_assign_at in Hm. destruct Hm as [->|Hm]; [reflexivity|].
      exact (Hinv m Hm).
    - injection Ha as <-. intros m Hm. apply in_app_or in Hm.
      destruct Hm as [Hm|[<-|[]]]; [exact (Hinv m Hm) | reflexivity]. }
  destruct up; [|injection H as <-; exact Hw].
  destruct found as [i|]; [|discriminate H].
  destruct (nth_error w i) as [x|] eqn:Hn; [|discriminate H].
  destruct (flt (off x) (on x)); injection H as <-; [|exact Hw].
  intros m Hm. apply In_assign_at in Hm. destruct Hm as [->|Hm]; [|exact (Hw m Hm)].
  cbn [set_off active]. apply Hw. exact (nth_error_In w i Hn).
Qed.

Lemma key_loop_active (event : SDL_Event) (time : F) (codes : list Z) :
  forall (k : Z) (v v' : list (note F)),
    key_loop event time k codes v = Ok v' ->
    (forall m, In m v -> active m = true) -> forall m, In m v' -> active m = true.
Proof.
  induction codes as [|code codes IH]; intros k v v' H Hinv.
  - injection H as <-. exact Hinv.
  - cbn [key_loop] in H.
    destruct (key_event event time k code v) as [w| |] eqn:Hw; try discriminate H.
    exact (IH (k + 1)%Z w v' H (key_event_active event time k code v w Hw Hinv)).
Qed.

(* The registry holds active notes only: an event of the keyboard keeps it
   so. *)
Lemma registry_stays_active (event : SDL_Event) (time : F) (isActive isActive' : bool)
    (v v' : list (note F)) :
  handle_event event time isActive v = Ok (isActive', v') ->
  (forall m, In m v -> active m = true) -> forall m, In m v' -> active m = true.
Proof.
  unfold handle_event. intros H Hinv.
  destruct (key_loop event time 0 notes v) as [w| |] eqn:Hw; try discriminate H.
  injection H as _ <-. exact (key_loop_active event time notes 0%Z v w Hw Hinv).
Qed.

End KeyboardFacts.

Section KeyboardOnDoubles.
Local Open Scope float_scope.

(* The release of the note of a key that is in the registry: [off] is set
   when the note is held, and nothing changes when [off < on] is false, as
   for a note released before. *)
Lemma release_of_found (k : nat) (code : Z) (time : float) (isActive : bool)
    (pre post : list (note float)) (n : note float) :
  nth_error notes k = Some code ->
  find_if (is_key_note (Z.of_nat k)) pre = None ->
  is_key_note (Z.of_nat k) n = true ->
  handle_event (key_up code) time isActive (pre ++ n :: post)
  = Ok (isActive,
        if PrimFloat.ltb (off n) (on n)
        then pre ++ set_off n time :: post else pre ++ n :: post).
Proof.
  intros Hk Hpre Hn. unfold handle_event.
  rewrite (key_loop_at (key_up code) time k code _ Hk eq_refl).
  unfold key_event. cbn [key_up ev_type ev_scancode ev_repeat event_type_eqb andb].
  rewrite Z.eqb_refl.
  change (find_if _ (pre ++ n :: post))
    with (find_if (is_key_note (Z.of_nat k)) (pre ++ n :: post)).
  rewrite (find_if_app _ pre post n Hpre Hn), nth_error_middle.
  change (flt (off n) (on n)) with (PrimFloat.ltb (off n) (on n)).
  destruct (PrimFloat.ltb (off n) (on n)); [rewrite assign_at_middle|]; reflexivity.
Qed.

(** C6: the released note of a key (on = 0, off = 5), when the key goes down
    at time 6, gets on = 6 and keeps off = 5; a key that goes down with no
    note of its own in the registry adds a note with on = 6 and off = 0.  At
    every time t, so at every t >= 6, the two notes have the same amplitude
    under every envelope, and on the harmonica the same sample and the same
    finished flag from the same state of rand(). *)
Theorem retrigger_is_new_note (k : nat) (code : Z) (isActive a : bool)
    (pre post : list (note float)) :
  nth_error notes k = Some code ->
  find_if (is_key_note (Z.of_nat k)) pre = None ->
  find_if (is_key_note (Z.of_nat k)) post = None ->
  let released :=
    {| id := Z.of_nat k + 64; on := 0; off := 5; active := a;
       channel := Some instHarm |} in
  let retriggered :=
    {| id := Z.of_nat k + 64; on := 6; off := 5; active := true;
       channel := Some instHarm |} in
  let brand_new :=
    {| id := Z.of_nat k + 64; on := 6; off := 0; active := true;
       channel := Some instHarm |} in
  handle_event (key_down code) 6 isActive (pre ++ released :: post)
  = Ok (isActive, pre ++ retriggered :: post)
  /\ handle_event (key_down code) 6 isActive (pre ++ post)
     = Ok (isActive, (pre ++ post) ++ [brand_new])
  /\ (forall (e : envelope_adsr float) t,
        amplitude e t (on retriggered) (off retriggered)
        = amplitude e t (on brand_new) (off brand_new))
  /\ (forall (L : Libm float) (P : Pow float) (R : Type) (G : Rand R) fuel t (r : R),
        sound instHarm fuel t retriggered r = sound instHarm fuel t brand_new r
        /\ note_sample fuel t retriggered r = note_sample fuel t brand_new r
        /\ reported_finished t retriggered = reported_finished t brand_new).
Proof.
  intros Hk Hpre Hpost released retriggered brand_new.
  assert (Hamp : forall (e : envelope_adsr float) t,
    amplitude e t (on retriggered) (off retriggered)
    = amplitude e t (on brand_new) (off brand_new)).
  { intros e t. reflexivity. }
  split; [|split; [|split; [exact Hamp|intros L P R G fuel t r; split; [|split]]]].
  - unfold handle_event.
    rewrite (key_loop_at (key_down code) 6 k code _ Hk eq_refl).
    unfold key_event. cbn [key_down ev_type ev_scancode ev_repeat event_type_eqb andb].
    rewrite Z.eqb_refl. cbn [Z.eqb andb].
    change (find_if _ (pre ++ released :: post))
      with (find_if (is_key_note (Z.of_nat k)) (pre ++ released :: post)).
    assert (Hn : is_key_note (Z.of_nat k) released = true).
    { unfold is_key_note, released, channel_is. cbn [id channel].
      rewrite Z.eqb_refl. reflexivity. }
    rewrite (find_if_app _ pre post released Hpre Hn), nth_error_middle.
    change (flt (on released) (off released)) with true. cbv iota.
    rewrite assign_at_middle. reflexivity.
  - unfold handle_event.
    rewrite (key_loop_at (key_down code) 6 k code _ Hk eq_refl).
    unfold key_event. cbn [key_down ev_type ev_scancode ev_repeat event_type_eqb andb].
    rewrite Z.eqb_refl. cbn [Z.eqb andb].
    change (find_if _ (pre ++ post))
      with (find_if (is_key_note (Z.of_nat k)) (pre ++ post)).
    rewrite (find_if_none_app _ pre post Hpre Hpost). reflexivity.
  - unfold sound, env. rewrite Hamp. reflexivity.
  - unfold note_sample. cbn [channel retriggered brand_new].
    unfold sound, env. rewrite Hamp. reflexivity.
  - unfold reported_finished, note_finished, env.
    cbn [channel retriggered brand_new instHarm].
    rewrite Hamp. reflexivity.
Qed.

Lemma retrigger_is_new_note_witness :
  handle_event (key_down SDL_SCANCODE_Z) 6 true
    [ {| id := 64; on := 0; off := 5; active := true; channel := Some instHarm |} ]
  = Ok (true,
        [ {| id := 64; on := 6; off := 5; active := true; channel := Some instHarm |} ])
  /\ handle_event (key_down SDL_SCANCODE_Z) 6 true []
     = Ok (true,
           [ {| id := 64; on := 6; off := 0; active := true; channel := Some instHarm |} ]).
Proof.
  destruct (retrigger_is_new_note 0 SDL_SCANCODE_Z true true [] []
              eq_refl eq_refl eq_refl) as (H1 & H2 & _).
  split; [exact H1 | exact H2].
Defined.

(** C7, at the input on which the code fails it: when a key goes up and no
    note of the registry is the note of that key, [main] reads through
    [noteFound], which is [end()]: the behaviour is undefined, not a silent
    no-op that leaves the registry as it was. *)
Theorem release_without_note (k : nat) (code : Z) (time : float) (isActive : bool)
    (v : list (note float)) :
  nth_error notes k = Some code ->
  find_if (is_key_note (Z.of_nat k)) v = None ->
  handle_event (key_up code) time isActive v = Undefined.
Proof.
  intros Hk Hfind. unfold handle_event.
  rewrite (key_loop_at (key_up code) time k code v Hk eq_refl).
  unfold key_event. cbn [key_up ev_type ev_scancode ev_repeat event_type_eqb andb].
  rewrite Z.eqb_refl.
  change (find_if _ v) with (find_if (is_key_note (Z.of_nat k)) v).
  rewrite Hfind. reflexivity.
Qed.

Lemma release_without_note_witness :
  handle_event (key_up SDL_SCANCODE_Z) 1 true [] = Undefined.
Proof. exact (release_without_note 0 SDL_SCANCODE_Z 1 true [] eq_refl eq_refl). Defined.

End KeyboardOnDoubles.

(** ** A tap on a key *)

Section DoublesFacts.
Local Open Scope float_scope.

(* The difference of a finite double and itself is 0. *)
Lemma sub_diag_finite (x : float) (s : bool) (m : positive) (e : Z) :
  Prim2SF x = S754_finite s m e -> x - x = 0.
Proof.
  intro H. apply Prim2SF_inj. rewrite sub_spec, H.
  unfold SF64sub, SFsub. rewrite Z.sub_diag. reflexivity.
Qed.

Lemma ltb_irrefl (x : float) : PrimFloat.ltb x x = false.
Proof.
  rewrite FloatAxioms.ltb_spec. unfold SFltb, SFcompare.
  destruct (Prim2SF x) as [s|s| |s m e]; try reflexivity.
  - destruct s; reflexivity.
  - destruct s; rewrite Z.compare_refl, Pos.compare_cont_refl; reflexivity.
Qed.

(* A NaN goes through the arithmetic and fails every comparison. *)
Lemma nan_mul_l (x y : float) : Prim2SF x = S754_nan -> Prim2SF (x * y) = S754_nan.
Proof. intro H. rewrite mul_spec, H. reflexivity. Qed.

Lemma nan_add_l (x y : float) : Prim2SF x = S754_nan -> Prim2SF (x + y) = S754_nan.
Proof. intro H. rewrite add_spec, H. reflexivity. Qed.

Lemma nan_add_r (x y : float) : Prim2SF y = S754_nan -> Prim2SF (x + y) = S754_nan.
Proof. intro H. rewrite add_spec, H. destruct (Prim2SF x); reflexivity. Qed.

Lemma nan_leb_l (x y : float) : Prim2SF x = S754_nan -> PrimFloat.leb x y = false.
Proof. intro H. rewrite FloatAxioms.leb_spec, H. reflexivity. Qed.

Lemma nan_is_nan (x : float) : Prim2SF x = S754_nan -> PrimFloat.is_nan x = true.
Proof.
  intro H. unfold PrimFloat.is_nan. rewrite FloatAxioms.eqb_spec, H. reflexivity.
Qed.

End DoublesFacts.

Section TapOnDoubles.
Context {L : Libm float} {P : Pow float}.
Context {R : Type} {G : Rand R}.
Local Open Scope float_scope.

(* The envelope of the Harmonica for a note with on = off. *)
Lemma amplitude_tap_nan (t time : float) (s : bool) (m : positive) (e : Z) :
  Prim2SF time = S754_finite s m e ->
  Prim2SF (amplitude (inst_env (construct instHarm)) t time time) = S754_nan.
Proof.
  intro H. unfold amplitude.
  cbn [inst_env construct instHarm dAttackTime dDecayTime dSustainAmplitude
       dReleaseTime dStartAmplitude envelope_adsr_default lit fle flt fadd fsub fmul fdiv
       float_num].
  rewrite ltb_irrefl, (sub_diag_finite time s m e H).
  match goal with
  | |- context [(?x / 0.5 * (0 - ?ra) + ?ra)] =>
      assert (Hra : Prim2SF ra = S754_nan) by reflexivity;
      set (RA := ra) in *; set (X := x)
  end.
  assert (Hv : Prim2SF (X / 0.5 * (0 - RA) + RA) = S754_nan) by (apply nan_add_r, Hra).
  rewrite (nan_leb_l _ 0.01 Hv). exact Hv.
Qed.

Lemma fold_left_nan (ss : list float) :
  forall acc : float,
    Prim2SF acc = S754_nan \/ (exists s, In s ss /\ Prim2SF s = S754_nan) ->
    Prim2SF (fold_left PrimFloat.add ss acc) = S754_nan.
Proof.
  induction ss as [|x ss IH]; intros acc H; cbn [fold_left].
  - destruct H as [H|(s & [] & _)]. exact H.
  - apply IH. destruct H as [H|(s & [<-|Hs] & Hn)].
    + left. apply nan_add_l, H.
    + left. apply nan_add_r, Hn.
    + right. exists s. split; assumption.
Qed.

(* The sample of a note of the Harmonica with on = off. *)
Lemma note_sample_tap_nan (k : nat) (t : float) (n : note float) (r r' : R)
    (x : float) (s : bool) (m : positive) (e : Z) :
  channel n = Some instHarm -> on n = off n -> Prim2SF (on n) = S754_finite s m e ->
  note_sample (99 + k) t n r = Ok (x, r') -> Prim2SF x = S754_nan.
Proof.
  intros Hc Hoff Hfin. unfold note_sample. rewrite Hc.
  destruct (sound_harmonica_float k t n r) as (dSound & r1 & Hs).
  rewrite (bind_ok _ _ Hs). unfold ret. cbn [fst]. intro E. injection E as <- _.
  apply nan_mul_l, nan_mul_l. rewrite <- Hoff.
  exact (amplitude_tap_nan t (on n) s m e Hfin).
Qed.

Lemma note_samples_tap_nan (k : nat) (t : float) (n : note float)
    (s : bool) (m : positive) (e : Z) :
  channel n = Some instHarm -> on n = off n -> Prim2SF (on n) = S754_finite s m e ->
  forall (reg : list (note float)) (r r' : R) (ss : list float),
    In n reg -> note_samples (99 + k) t reg r = Ok (ss, r') ->
    exists x, In x ss /\ Prim2SF x = S754_nan.
Proof.
  intros Hc Hoff Hfin reg.
  induction reg as [|y reg IH]; intros r r' ss Hin H; [destruct Hin|].
  cbn [note_samples] in H. unfold bind at 1 in H.
  destruct (note_sample (99 + k) t y r) as [[x r1]| |] eqn:Hy; try discriminate H.
  unfold bind in H.
  destruct (note_samples (99 + k) t reg r1) as [[xs r2]| |] eqn:Hw; try discriminate H.
  unfold ret in H. injection H as <- _.
  destruct Hin as [->|Hin].
  - exists x. split; [left; reflexivity|].
    exact (note_sample_tap_nan k t n r r1 x s m e Hc Hoff Hfin Hy).
  - destruct (IH r1 r2 xs Hin Hw) as (x' & Hx' & Hn).
    exists x'. split; [right; exact Hx' | exact Hn].
Qed.

(* A key that goes down: with its note in the registry, and without. *)
Lemma press_of_found (k : nat) (code : Z) (time : float) (isActive : bool)
    (pre post : list (note float)) (n : note float) :
  nth_error notes k = Some code ->
  find_if (is_key_note (Z.of_nat k)) pre = None ->
  is_key_note (Z.of_nat k) n = true ->
  handle_event (key_down code) time isActive (pre ++ n :: post)
  = Ok (isActive,
        if PrimFloat.ltb (on n) (off n)
        then pre ++ set_active (set_on n time) true :: post else pre ++ n :: post).
Proof.
  intros Hk Hpre Hn. unfold handle_event.
  rewrite (key_loop_at (key_down code) time k code _ Hk eq_refl).
  unfold key_event. cbn [key_down ev_type ev_scancode ev_repeat event_type_eqb andb].
  rewrite Z.eqb_refl. cbn [Z.eqb andb].
  change (find_if _ (pre ++ n :: post))
    with (find_if (is_key_note (Z.of_nat k)) (pre ++ n :: post)).
  rewrite (find_if_app _ pre post n Hpre Hn), nth_error_middle.
  change (flt (on n) (off n)) with (PrimFloat.ltb (on n) (off n)).
  destruct (PrimFloat.ltb (on n) (off n)); [rewrite assign_at_middle|]; reflexivity.
Qed.

Lemma press_of_none (k : nat) (code : Z) (time : float) (isActive : bool)
    (v : list (note float)) :
  nth_error notes k = Some code ->
  find_if (is_key_note (Z.of_nat k)) v = None ->
  handle_event (key_down code) time isActive v
  = Ok (isActive,
        v ++ [ {| id := Z.of_nat k + 64; on := time; off := 0; active := true;
                  channel := Some instHarm |} ]).
Proof.
  intros Hk Hfind. unfold handle_event.
  rewrite (key_loop_at (key_down code) time k code _ Hk eq_refl).
  unfold key_event. cbn [key_down ev_type ev_scancode ev_repeat event_type_eqb andb].
  rewrite Z.eqb_refl. cbn [Z.eqb andb].
  change (find_if _ v) with (find_if (is_key_note (Z.of_nat k)) v).
  rewrite Hfind. reflexivity.
Qed.

(** C2, at the input on which the code fails it: a key that goes down and
    up within one reading of [data.time], as in a tap shorter than one buffer
    of the audio callback.  [main] stamps both events with the same time, so
    the note of the Harmonica gets on = off.  [amplitude] then takes the
    released regime with an age of 0, and its attack ramp, which nothing
    keeps from an attack time of 0, divides 0 by 0: the amplitude is a NaN at
    every time, the note is never reported finished, every render tick of a
    registry that holds the note returns a NaN and keeps the note, and no
    later event of the key changes it. *)
Theorem tap_divides_by_zero (k : nat) (code : Z) (isActive : bool)
    (v : list (note float)) (time : float) (m : positive) (e : Z) :
  nth_error notes k = Some code ->
  find_if (is_key_note (Z.of_nat k)) v = None ->
  Prim2SF time = S754_finite false m e ->
  let pressed :=
    {| id := Z.of_nat k + 64; on := time; off := 0; active := true;
       channel := Some instHarm |} in
  let tapped :=
    {| id := Z.of_nat k + 64; on := time; off := time; active := true;
       channel := Some instHarm |} in
  handle_event (key_down code) time isActive v = Ok (isActive, v ++ [pressed])
  /\ handle_event (key_up code) time isActive (v ++ [pressed])
     = Ok (isActive, v ++ [tapped])
  /\ dAttackTime (inst_env (construct instHarm)) = 0
  /\ (forall t, PrimFloat.is_nan (amplitude (inst_env (construct instHarm)) t time time)
                = true)
  /\ (forall t, reported_finished t tapped = false)
  /\ (forall fuel t (reg : list (note float)) (r : R),
        In tapped reg ->
        exists out reg' r',
          MakeNoise (99 + fuel) t reg r = Ok ((out, reg'), r')
          /\ PrimFloat.is_nan out = true /\ In tapped reg')
  /\ (forall t, handle_event (key_down code) t isActive (v ++ [tapped])
                = Ok (isActive, v ++ [tapped])
                /\ handle_event (key_up code) t isActive (v ++ [tapped])
                   = Ok (isActive, v ++ [tapped])).
Proof.
  intros Hk Hfind Hfin pressed tapped.
  assert (Hkey : forall n : note float,
            id n = (Z.of_nat k + 64)%Z -> channel n = Some instHarm ->
            is_key_note (Z.of_nat k) n = true).
  { intros n Hi Hc. unfold is_key_note, channel_is. rewrite Hi, Hc, Z.eqb_refl.
    reflexivity. }
  assert (Hfinished : forall t, reported_finished t tapped = false).
  { intro t. unfold reported_finished, note_finished, env. cbn [channel tapped instHarm].
    change (fle ?x (lit 0.0)) with (PrimFloat.leb x 0).
    apply nan_leb_l. exact (amplitude_tap_nan t time false m e Hfin). }
  split; [|split; [|split; [|split; [|split; [|split]]]]].
  - exact (press_of_none k code time isActive v Hk Hfind).
  - rewrite (release_of_found k code time isActive v [] pressed Hk Hfind
               (Hkey pressed eq_refl eq_refl)).
    cbn [off on pressed].
    replace (PrimFloat.ltb 0 time) with true
      by (rewrite FloatAxioms.ltb_spec, Hfin; reflexivity).
    reflexivity.
  - reflexivity.
  - intro t. apply nan_is_nan. exact (amplitude_tap_nan t time false m e Hfin).
  - exact Hfinished.
  - intros fuel t reg r Hin.
    destruct (MakeNoise_spec (99 + fuel) (sound_total_float fuel) t reg r)
      as (ss & r' & Hss & H).
    do 3 eexists. split; [exact H|]. split.
    + apply nan_is_nan. change (fmul ?x (lit 0.2)) with (x * 0.2).
      apply nan_mul_l. unfold sum_samples. apply fold_left_nan. right.
      exact (note_samples_tap_nan fuel t tapped false m e eq_refl eq_refl Hfin
               reg r r' ss Hin Hss).
    + apply filter_In. split; [exact Hin|]. rewrite Hfinished. reflexivity.
  - intro t. split.
    + rewrite (press_of_found k code t isActive v [] tapped Hk Hfind
                 (Hkey tapped eq_refl eq_refl)).
      cbn [on off tapped]. rewrite ltb_irrefl. reflexivity.
    + rewrite (release_of_found k code t isActive v [] tapped Hk Hfind
                 (Hkey tapped eq_refl eq_refl)).
      cbn [on off tapped]. rewrite ltb_irrefl. reflexivity.
Qed.

End TapOnDoubles.

Lemma tap_divides_by_zero_witness :
  let tapped :=
    {| id := 64; on := 1%float; off := 1%float; active := true;
       channel := Some instHarm |} in
  handle_event (key_down SDL_SCANCODE_Z) 1%float true []
  = Ok (true, [ {| id := 64; on := 1%float; off := 0%float; active := true;
                   channel := Some instHarm |} ])
  /\ handle_event (key_up SDL_SCANCODE_Z) 1%float true
       [ {| id := 64; on := 1%float; off := 0%float; active := true;
            channel := Some instHarm |} ]
     = Ok (true, [tapped])
  /\ PrimFloat.is_nan
       (amplitude (inst_env (construct instHarm)) 1000%float 1%float 1%float) = true
  /\ exists out reg' r',
       MakeNoise (L:=run_libm) (P:=run_pow) (G:=run_rand) 99 1.5%float [tapped] 0%Z
       = Ok ((out, reg'), r')
       /\ PrimFloat.is_nan out = true /\ In tapped reg'.
Proof.
  destruct (tap_divides_by_zero (L:=run_libm) (P:=run_pow) (G:=run_rand)
              0 SDL_SCANCODE_Z true [] 1%float 4503599627370496 (-52)
              eq_refl eq_refl eq_refl) as (H1 & H2 & _ & H4 & _ & H6 & _).
  split; [exact H1|]. split; [exact H2|]. split; [exact (H4 1000%float)|].
  exact (H6 0%nat 1.5%float [_] 0%Z (or_introl eq_refl)).
Defined.

(** ** The sequencer *)

Section SequencerFacts.
Local Open Scope float_scope.
Local Open Scope string_scope.

Lemma no_hit_get (s : string) :
  no_hit s = true ->
  forall i c, String.get i s = Some c -> Ascii.eqb c "X" = false.
Proof.
  induction s as [|a s IH]; intros H i c Hget.
  - destruct i; discriminate Hget.
  - cbn [no_hit] in H. apply andb_true_iff in H. destruct H as [Ha Hs].
    destruct i as [|i]; cbn [String.get] in Hget.
    + injection Hget as <-. apply negb_true_iff. exact Ha.
    + exact (IH Hs i c Hget).
Qed.

Lemma get_in_range (s : string) :
  forall i, (i < String.length s)%nat -> exists c, String.get i s = Some c.
Proof.
  induction s as [|a s IH]; intros i Hi; cbn [String.length] in Hi.
  - lia.
  - destruct i as [|i]; cbn [String.get].
    + eexists; reflexivity.
    + apply IH. lia.
Qed.

Lemma wchar_at_silent (rest : string) (beat : Z) :
  String.length rest = 15%nat -> no_hit rest = true ->
  (1 <= beat <= 15)%Z ->
  exists c, wchar_at (String "X" rest) beat = Ok c /\ Ascii.eqb c "X" = false.
Proof.
  intros Hlen Hno Hb. unfold wchar_at.
  replace (beat <? 0)%Z with false by (symmetry; apply Z.ltb_ge; lia).
  replace (Z.to_nat beat) with (S (Z.to_nat (beat - 1))) by lia.
  cbn [String.get].
  destruct (get_in_range rest (Z.to_nat (beat - 1))) as [c Hc]; [lia|].
  rewrite Hc. exists c. split; [reflexivity|]. exact (no_hit_get rest Hno _ _ Hc).
Qed.

(* One turn of the loop of [Update] on a step that is not a hit. *)
Lemma Update_loop_silent fuel inst rest acc beat out :
  String.length rest = 15%nat -> no_hit rest = true ->
  (0 <= beat < 15)%Z -> PrimFloat.leb 0.125 acc = true ->
  Update_loop (S fuel) (one_channel acc beat out inst (String "X" rest))
  = Update_loop fuel (one_channel (acc - 0.125) (beat + 1) out inst (String "X" rest)).
Proof.
  intros Hlen Hno Hb Hacc.
  destruct (wchar_at_silent rest (beat + 1) Hlen Hno) as (c & Hc & Hx); [lia|].
  cbn [Update_loop one_channel fAccumulate fBeatTime sequencer_new nCurrentBeat
       nTotalBeats vecChannel vecNotes nBeats nSubBeats fTempo].
  change (fle (fdiv (fdiv (lit 60) 120) (of_int 4)) acc) with (PrimFloat.leb 0.125 acc).
  rewrite Hacc.
  change (4 * 4)%Z with 16%Z.
  replace (beat + 1 >=? 16)%Z with false
    by (symmetry; rewrite Z.geb_leb; apply Z.leb_gt; lia).
  cbn [Update_channels sBeat]. rewrite Hc, Hx. reflexivity.
Qed.

(* The turn that wraps the step counter to 0, the step of the hit. *)
Lemma Update_loop_wrap fuel inst rest acc out :
  PrimFloat.leb 0.125 acc = true ->
  Update_loop (S fuel) (one_channel acc 15 out inst (String "X" rest))
  = Update_loop fuel
      (one_channel (acc - 0.125) 0 (out ++ [sequencer_note inst]) inst (String "X" rest)).
Proof.
  intros Hacc.
  cbn [Update_loop one_channel fAccumulate fBeatTime sequencer_new nCurrentBeat
       nTotalBeats vecChannel vecNotes nBeats nSubBeats fTempo].
  change (fle (fdiv (fdiv (lit 60) 120) (of_int 4)) acc) with (PrimFloat.leb 0.125 acc).
  rewrite Hacc. reflexivity.
Qed.

Lemma Update_loop_stop fuel inst pat acc beat out :
  PrimFloat.leb 0.125 acc = false ->
  Update_loop fuel (one_channel acc beat out inst pat)
  = Ok (one_channel acc beat out inst pat).
Proof.
  intros Hacc.
  destruct fuel;
    cbn [Update_loop one_channel fAccumulate fBeatTime sequencer_new];
    change (fle (fdiv (fdiv (lit 60) 120) (of_int 4)) acc) with (PrimFloat.leb 0.125 acc);
    rewrite Hacc; reflexivity.
Qed.

(** C8: the sequencer built with tempo 120, 4 beats and 4 sub-beats has 16
    steps of 0.125 s; with one channel whose pattern of 16 steps has its
    only hit at step 0, an update by 2.0 s of elapsed time returns (given
    fuel for its 16 turns) with exactly one note emitted, the step counter
    at its starting value 0 and the accumulator at 0. *)
Theorem sequencer_full_bar (k : nat) (inst : option instrument_class) (rest : string) :
  String.length rest = 15%nat -> no_hit rest = true ->
  let q := one_channel 0 0 [] inst (String "X" rest) in
  fBeatTime q = 0.125 /\ nTotalBeats q = 16%Z
  /\ Update (16 + k) q 2
     = Ok (1%Z, one_channel 0 0 [sequencer_note inst] inst (String "X" rest)).
Proof.
  intros Hlen Hno q. subst q. split; [reflexivity|]. split; [reflexivity|].
  unfold Update.
  change (Update_loop (16 + k) _)
    with (Update_loop (16 + k) (one_channel 2 0 [] inst (String "X" rest))).
  change (16 + k)%nat with (S (S (S (S (S (S (S (S (S (S (S (S (S (S (S (S k)))))))))))))))).
  do 15 (rewrite Update_loop_silent by (try assumption; try lia; reflexivity);
         cbn [Z.add Pos.add Pos.succ]).
  rewrite Update_loop_wrap by reflexivity.
  rewrite Update_loop_stop by reflexivity.
  cbn [vecNotes one_channel app List.length Z.of_nat Pos.of_succ_nat].
  reflexivity.
Qed.

Lemma sequencer_full_bar_witness :
  Update 16 (one_channel 0 0 [] (Some instKick) "X...............") 2
  = Ok (1%Z, one_channel 0 0 [sequencer_note (Some instKick)] (Some instKick)
               "X...............").
Proof.
  exact (proj2 (proj2 (sequencer_full_bar 0 (Some instKick) "..............."
                         eq_refl eq_refl))).
Defined.

End SequencerFacts.

(** * Further properties *)

(** ** The envelope, phase by phase *)

Section EnvelopeOnRationals.
Local Open Scope Q_scope.

Lemma amplitude_held_exact (a d s r st on_ off_ t : Q) :
  0 <= a -> 0 <= d -> 0 < a \/ on_ < t -> off_ < on_ ->
  amplitude (exact_env a d s r st) (Some t) (Some on_) (Some off_)
  = Some (clamp (held_value a d s st (t - on_))).
Proof.
  intros Ha Hd Hz Hoff. unfold held_value. exact_arith. repeat settle_test.
  destruct (Qle_bool (t - on_) a) eqn:E1.
  - apply Qle_bool_iff in E1.
    assert (Hpos : 0 < a) by (destruct Hz; lra).
    repeat settle_test. apply clamp_out.
  - apply Qle_bool_false in E1. cbv beta iota zeta delta [negb andb].
    destruct (Qle_bool (t - on_) (a + d)) eqn:E2.
    + apply Qle_bool_iff in E2. repeat settle_test. apply clamp_out.
    + apply clamp_out.
Qed.

Lemma amplitude_released_exact (a d s r st on_ off_ t : Q) :
  0 <= a -> 0 <= d -> 0 < a \/ on_ < off_ -> on_ <= off_ -> ~ r == 0 ->
  amplitude (exact_env a d s r st) (Some t) (Some on_) (Some off_)
  = Some (clamp (released_value a d s r st (off_ - on_) (t - off_))).
Proof.
  intros Ha Hd Hz Hoff Hr. unfold released_value, held_value.
  exact_arith. repeat settle_test.
  destruct (Qle_bool (off_ - on_) a) eqn:E1.
  - apply Qle_bool_iff in E1.
    assert (Hpos : 0 < a) by (destruct Hz; lra).
    repeat settle_test. apply clamp_out.
  - apply Qle_bool_false in E1. cbv beta iota zeta delta [negb andb].
    destruct (Qle_bool (off_ - on_) (a + d)) eqn:E2.
    + apply Qle_bool_iff in E2. repeat settle_test. apply clamp_out.
    + repeat settle_test. apply clamp_out.
Qed.

Lemma held_value_bounds (a d s st life : Q) :
  0 <= a -> 0 <= d -> 0 <= st -> 0 <= s -> 0 <= life ->
  0 <= held_value a d s st life
  /\ (s <= st -> held_value a d s st life <= st)
  /\ (st <= s -> held_value a d s st life <= s).
Proof.
  intros Ha Hd Hst Hs Hl. unfold held_value.
  destruct (Qle_bool life a) eqn:E1.
  - apply Qle_bool_iff in E1.
    destruct (Qeq_dec a 0) as [Z|NZ].
    + assert (X : life / a * st == 0).
      { unfold Qdiv. rewrite Z. assert (Y : / 0 == 0) by reflexivity. rewrite Y. ring. }
      rewrite X. repeat split; intros; lra.
    + assert (U1 : 0 <= life / a) by (apply Qle_shift_div_l; lra).
      assert (U2 : life / a <= 1) by (apply Qle_shift_div_r; lra).
      set (u := life / a) in *. repeat split; intros; nra.
  - apply Qle_bool_false in E1.
    destruct (Qle_bool life (a + d)) eqn:E2.
    + apply Qle_bool_iff in E2.
      assert (U1 : 0 <= (life - a) / d) by (apply Qle_shift_div_l; lra).
      assert (U2 : (life - a) / d <= 1) by (apply Qle_shift_div_r; lra).
      set (u := (life - a) / d) in *. repeat split; intros; nra.
    + repeat split; intros; lra.
Qed.

Lemma clamp_nonneg (v : Q) : 0 <= clamp v.
Proof.
  pose proof floor_level_pos. unfold clamp.
  destruct (Qle_bool v floor_level) eqn:E; [lra|].
  apply Qle_bool_false in E. lra.
Qed.

Lemma clamp_le (v b : Q) : 0 <= b -> v <= b -> clamp v <= b.
Proof.
  intros Hb Hv. unfold clamp. destruct (Qle_bool v floor_level); lra.
Qed.

(** X1: with attackTime > 0, decayTime >= 0 and releaseTime <> 0 the three
    tests that [amplitude] runs one after the other come to one branch each:
    the amplitude is defined and is the clamp of [held_value] of t - on when
    on > off, and of [released_value] (the line from the held value at
    off - on down to 0 over the release time) when on <= off. *)
Theorem amplitude_piecewise (a d s r st on_ off_ t : Q) :
  0 < a -> 0 <= d -> ~ r == 0 ->
  amplitude (exact_env a d s r st) (Some t) (Some on_) (Some off_)
  = Some (clamp (if Qle_bool on_ off_
                 then released_value a d s r st (off_ - on_) (t - off_)
                 else held_value a d s st (t - on_))).
Proof.
  intros Ha Hd Hr. destruct (Qle_bool on_ off_) eqn:E.
  - apply Qle_bool_iff in E. apply amplitude_released_exact; lra.
  - apply Qle_bool_false in E. apply amplitude_held_exact; lra.
Qed.

Lemma amplitude_piecewise_witness :
  amplitude (exact_env (1#10) (1#10) 1 (1#5) 1) (Some 3) (Some 1) (Some 2)
  = Some (clamp (if Qle_bool 1 2
                 then released_value (1#10) (1#10) 1 (1#5) 1 (2 - 1) (3 - 2)
                 else held_value (1#10) (1#10) 1 1 (3 - 1))).
Proof.
  apply amplitude_piecewise.
  - reflexivity.
  - discriminate.
  - discriminate.
Defined.

(** X2: a held note (off < on) with attackTime > 0, decayTime >= 0 and
    start and sustain amplitudes that are not negative has, at every time, an
    amplitude between 0 and the larger of the two, and the amplitude 0 at
    every time up to [on]. *)
Theorem held_amplitude_bounds (a d s r st on_ off_ t : Q) :
  0 < a -> 0 <= d -> 0 <= st -> 0 <= s -> off_ < on_ ->
  exists v,
    amplitude (exact_env a d s r st) (Some t) (Some on_) (Some off_) = Some v
    /\ 0 <= v
    /\ (s <= st -> v <= st)
    /\ (st <= s -> v <= s)
    /\ (t <= on_ -> v = 0).
Proof.
  intros Ha Hd Hst Hs Hoff.
  rewrite amplitude_held_exact by (try lra; left; lra).
  eexists. split; [reflexivity|]. split; [apply clamp_nonneg|].
  destruct (Qlt_le_dec (t - on_) 0) as [Hneg|Hpos].
  - assert (Hv : held_value a d s st (t - on_) <= 0).
    { unfold held_value.
      replace (Qle_bool (t - on_) a) with true by (symmetry; apply Qle_bool_iff; lra).
      assert (U : (t - on_) / a <= 0) by (apply Qle_shift_div_r; lra).
      set (u := (t - on_) / a) in *. nra. }
    pose proof floor_level_pos.
    rewrite clamp_low by lra. repeat split; intros; lra.
  - destruct (held_value_bounds a d s st (t - on_)) as (H0 & H1 & H2); try lra.
    split; [|split].
    + intro H. apply clamp_le; [lra | exact (H1 H)].
    + intro H. apply clamp_le; [lra | exact (H2 H)].
    + intro Ht. apply clamp_low. pose proof floor_level_pos.
      unfold held_value.
      replace (Qle_bool (t - on_) a) with true by (symmetry; apply Qle_bool_iff; lra).
      assert (X : (t - on_) / a * st == 0).
      { assert (Z : t - on_ == 0) by lra. rewrite Z. field. lra. }
      rewrite X. lra.
Qed.

Lemma held_amplitude_bounds_witness :
  exists v,
    amplitude (exact_env (1#10) (1#10) (4#5) (1#5) 1) (Some (3#20)) (Some 0) (Some (-1))
    = Some v
    /\ 0 <= v /\ ((4#5) <= 1 -> v <= 1) /\ (1 <= (4#5) -> v <= 4#5)
    /\ ((3#20) <= 0 -> v = 0).
Proof.
  apply held_amplitude_bounds.
  - reflexivity.
  - discriminate.
  - discriminate.
  - discriminate.
  - reflexivity.
Defined.

(** X3: at the time T of its release a note has the amplitude it had as a
    held note at T: the release ramp starts from the level the note has
    reached, whatever the phase (attackTime > 0, decayTime >= 0,
    releaseTime <> 0). *)
Theorem release_is_continuous (a d s r st on_ off' T : Q) :
  0 < a -> 0 <= d -> ~ r == 0 -> off' < on_ -> on_ <= T ->
  exists v1 v2,
    amplitude (exact_env a d s r st) (Some T) (Some on_) (Some T) = Some v1
    /\ amplitude (exact_env a d s r st) (Some T) (Some on_) (Some off') = Some v2
    /\ v1 == v2.
Proof.
  intros Ha Hd Hr Hoff Hon.
  rewrite amplitude_released_exact by (try lra; try assumption; left; lra).
  rewrite amplitude_held_exact by (try lra; left; lra).
  do 2 eexists. split; [reflexivity|]. split; [reflexivity|].
  apply clamp_proper. unfold released_value. field. exact Hr.
Qed.

Lemma release_is_continuous_witness :
  exists v1 v2,
    amplitude (exact_env (1#10) (1#10) (4#5) (1#5) 1) (Some 1) (Some 0) (Some 1) = Some v1
    /\ amplitude (exact_env (1#10) (1#10) (4#5) (1#5) 1) (Some 1) (Some 0) (Some (-1))
       = Some v2
    /\ v1 == v2.
Proof.
  apply release_is_continuous.
  - reflexivity.
  - discriminate.
  - discriminate.
  - reflexivity.
  - discriminate.
Defined.

(** X4: a note released in any phase (on <= off, attackTime > 0,
    decayTime >= 0, releaseTime > 0, amplitudes not negative) has an amplitude
    that never increases from [off] on, and that is exactly 0 from
    off + releaseTime on. *)
Theorem release_decays_to_silence (a d s r st on_ off_ : Q) :
  0 < a -> 0 <= d -> 0 < r -> 0 <= st -> 0 <= s -> on_ <= off_ ->
  let amp t := amplitude (exact_env a d s r st) (Some t) (Some on_) (Some off_) in
  (forall t1 t2, off_ <= t1 -> t1 <= t2 ->
     exists v1 v2, amp t1 = Some v1 /\ amp t2 = Some v2 /\ v2 <= v1)
  /\ (forall t, off_ + r <= t -> amp t = Some 0).
Proof.
  intros Ha Hd Hr Hst Hs Hon amp.
  assert (Hamp : forall t,
    amp t = Some (clamp (released_value a d s r st (off_ - on_) (t - off_)))).
  { intro t. subst amp. cbv beta.
    apply amplitude_released_exact; lra. }
  destruct (held_value_bounds a d s st (off_ - on_)) as (H0 & _ & _); try lra.
  unfold released_value in Hamp. set (h := held_value a d s st (off_ - on_)) in *.
  split.
  - intros t1 t2 H1 H12. do 2 eexists. rewrite !Hamp.
    split; [reflexivity|]. split; [reflexivity|]. apply clamp_mono.
    assert (U : (t1 - off_) / r <= (t2 - off_) / r).
    { unfold Qdiv. apply Qmult_le_compat_r; [lra|].
      apply Qlt_le_weak, Qinv_lt_0_compat, Hr. }
    set (u1 := (t1 - off_) / r) in *. set (u2 := (t2 - off_) / r) in *. nra.
  - intros t Ht. rewrite Hamp. f_equal. apply clamp_low.
    assert (U : 1 <= (t - off_) / r) by (apply Qle_shift_div_l; lra).
    set (u := (t - off_) / r) in *. pose proof floor_level_pos. nra.
Qed.

Lemma release_decays_to_silence_witness :
  amplitude (exact_env (1#10) (1#10) (4#5) (1#5) 1) (Some 2) (Some 0) (Some (1#20))
  = Some 0.
Proof.
  assert (Ha : 0 < 1#10) by reflexivity.
  assert (Hd : 0 <= 1#10) by discriminate.
  assert (Hr : 0 < 1#5) by reflexivity.
  assert (Hst : 0 <= 1) by discriminate.
  assert (Hs : 0 <= 4#5) by discriminate.
  assert (Hon : 0 <= 1#20) by discriminate.
  apply (proj2 (release_decays_to_silence (1#10) (1#10) (4#5) (1#5) 1 0 (1#20)
                  Ha Hd Hr Hst Hs Hon)).
  discriminate.
Defined.

(** ** The life of a note *)

Lemma harmonica_env_exact :
  inst_env (construct (F:=exact) instrument_harmonica)
  = exact_env 0 1 sustain_harmonica (1#2) 1.
Proof. vm_compute. reflexivity. Qed.

Lemma bell_env_exact :
  inst_env (construct (F:=exact) instrument_bell) = exact_env floor_level 1 0 1 1.
Proof. vm_compute. reflexivity. Qed.

Lemma finished_iff_silent (v : Q) :
  fle (F:=exact) (Some (clamp v)) (lit 0.0) = Qle_bool v floor_level.
Proof.
  rewrite lit_zero. cbn [fle exact_num exact_le]. unfold clamp.
  pose proof floor_level_pos.
  destruct (Qle_bool v floor_level) eqn:E.
  - reflexivity.
  - apply Qle_bool_false in E. apply Qle_bool_false. lra.
Qed.

Lemma harmonica_held_unfinished (i : Z) (on_ off_ t : Q) (act : bool)
    (c : option instrument_class) :
  off_ < on_ -> on_ < t ->
  note_finished (F:=exact) instHarm (Some t) (exact_note i on_ off_ act c) = false.
Proof.
  intros Hoff Ht.
  unfold note_finished, instHarm, env. cbv beta iota zeta.
  rewrite harmonica_env_exact. cbn [exact_note on off].
  rewrite amplitude_held_exact by (try lra; right; lra).
  rewrite finished_iff_silent. apply Qle_bool_false.
  assert (Hf : floor_level < sustain_harmonica) by reflexivity.
  assert (Hs : sustain_harmonica < 1) by reflexivity.
  unfold held_value.
  replace (Qle_bool (t - on_) 0) with false by (symmetry; apply Qle_bool_false; lra).
  destruct (Qle_bool (t - on_) (0 + 1)) eqn:E; [|exact Hf].
  apply Qle_bool_iff in E.
  assert (X : (t - on_ - 0) / 1 * (sustain_harmonica - 1) + 1
              == (t - on_) * (sustain_harmonica - 1) + 1) by (field).
  rewrite X. nra.
Qed.

Lemma harmonica_released_finished (i : Z) (on_ off_ t : Q) (act : bool)
    (c : option instrument_class) :
  on_ < off_ -> off_ + (1#2) <= t ->
  note_finished (F:=exact) instHarm (Some t) (exact_note i on_ off_ act c) = true.
Proof.
  intros Hoff Ht.
  unfold note_finished, instHarm, env. cbv beta iota zeta.
  rewrite harmonica_env_exact. cbn [exact_note on off].
  rewrite amplitude_released_exact
    by (try lra; try (right; lra); intro H; discriminate H).
  rewrite finished_iff_silent. apply Qle_bool_iff.
  assert (Hs0 : 0 <= sustain_harmonica) by discriminate.
  destruct (held_value_bounds 0 1 sustain_harmonica 1 (off_ - on_)) as (H0 & _ & _);
    try lra.
  unfold released_value. set (h := held_value 0 1 sustain_harmonica 1 (off_ - on_)) in *.
  assert (U : 1 <= (t - off_) / (1#2)) by (apply Qle_shift_div_l; lra).
  set (u := (t - off_) / (1#2)) in *. pose proof floor_level_pos. nra.
Qed.





(** X7: a note as [Update] emits it has on = 0 and off = 0, which is the
    released regime of every envelope: at every time the amplitude is 0 for
    the Bell and the 8-Bit Bell and undefined (a division by zero) for the
    Harmonica and the three drums. *)
Theorem sequencer_note_is_inaudible (t : Q) :
  amplitude (F:=exact) (inst_env (construct instBell)) (Some t) (lit 0) (lit 0) = Some 0
  /\ amplitude (F:=exact) (inst_env (construct instrument_bell8)) (Some t) (lit 0) (lit 0) = Some 0
  /\ amplitude (F:=exact) (inst_env (construct instHarm)) (Some t) (lit 0) (lit 0) = None
  /\ amplitude (F:=exact) (inst_env (construct instKick)) (Some t) (lit 0) (lit 0) = None
  /\ amplitude (F:=exact) (inst_env (construct instSnare)) (Some t) (lit 0) (lit 0) = None
  /\ amplitude (F:=exact) (inst_env (construct instHiHat)) (Some t) (lit 0) (lit 0) = None.
Proof.
  assert (Hq : forall a d s r st, 0 < a -> 0 <= d -> ~ r == 0 ->
            amplitude (exact_env a d s r st) (Some t) (Some 0) (Some 0) = Some 0).
  { intros a d s r st Ha Hd Hr.
    rewrite amplitude_released_exact by (try lra; try assumption; left; lra).
    f_equal. apply clamp_low. unfold released_value, held_value.
    replace (Qle_bool (0 - 0) a) with true by (symmetry; apply Qle_bool_iff; lra).
    assert (X : (t - 0) / r * (0 - (0 - 0) / a * st) + (0 - 0) / a * st == 0)
      by (field; split; lra).
    rewrite X. apply Qlt_le_weak, floor_level_pos. }
  rewrite lit_zero.
  split; [|split; [|split; [|split; [|split]]]].
  - unfold instBell. rewrite bell_env_exact. apply Hq; [apply floor_level_pos | discriminate | discriminate].
  - change (inst_env (construct (F:=exact) instrument_bell8))
      with (exact_env floor_level (1#2) (3602879701896397 # 4503599627370496) 1 1).
    apply Hq; [apply floor_level_pos | discriminate | discriminate].
  - vm_compute. reflexivity.
  - vm_compute. reflexivity.
  - vm_compute. reflexivity.
  - vm_compute. reflexivity.
Qed.

End EnvelopeOnRationals.

(** ** Scale and oscillator *)

Section ScaleFacts.
Context {P : Pow float}.
Local Open Scope Q_scope.

Lemma ratio_power_ge_1 (k : nat) : 1 <= ratio ^ Z.of_nat k.
Proof.
  assert (Hr : ~ ratio == 0) by (intro H; discriminate H).
  assert (H1 : 1 < ratio) by reflexivity.
  induction k as [|k IH].
  - discriminate.
  - replace (Z.of_nat (S k)) with (Z.of_nat k + 1)%Z by lia.
    rewrite Qpower_plus by exact Hr.
    assert (E : ratio ^ 1 == ratio) by reflexivity. rewrite E. nra.
Qed.

(** X8: on doubles [scale] is strictly increasing over the degrees at
    which [pow] returns its power as a positive normal double below 2^1021
    with a relative error of at most u <= 1/1000. *)
Theorem scale_increasing (n m : Z) (u p p' : Q) :
  0 <= u -> u <= 1 # 1000 -> (n < m)%Z ->
  pow_accurate n u p -> pow_accurate m u p' ->
  exists a b : Q,
    Q_of_float (scale (F:=float) n) = Some a
    /\ Q_of_float (scale (F:=float) m) = Some b
    /\ a < b.
Proof.
  intros Hu0 Hu1 Hnm Hn Hm.
  destruct (scale_value n u p Hn) as (a & Ha & Ea).
  destruct (scale_value m u p' Hm) as (b & Hb & Eb).
  exists a, b. split; [exact Ha|]. split; [exact Hb|].
  destruct Hn as [_ Hn]. destruct Hm as [_ Hm].
  apply accurate_bounds in Hn, Hm.
  assert (Hr : ~ ratio == 0) by (intro E; discriminate E).
  replace m with (n + (Z.of_nat (Z.to_nat (m - n - 1)) + 1))%Z in Hm by lia.
  rewrite !Qpower_plus in Hm by exact Hr.
  assert (E1 : ratio ^ 1 == ratio) by reflexivity. rewrite E1 in Hm.
  pose proof (ratio_pow_pos n) as Hx.
  pose proof (ratio_power_ge_1 (Z.to_nat (m - n - 1))) as Hy.
  assert (Hlow : 1059 # 1000 < ratio) by reflexivity.
  set (x := ratio ^ n) in *. set (y := ratio ^ Z.of_nat (Z.to_nat (m - n - 1))) in *.
  destruct Hn as [_ Hn2]. destruct Hm as [Hm1 _].
  rewrite Ea, Eb.
  assert (A1 : x * (1 + u) <= x * (1001 # 1000)) by nra.
  assert (A2 : x * (ratio * (999 # 1000)) <= x * (y * ratio) * (1 - u)).
  { assert (B1 : ratio <= y * ratio) by nra.
    set (z := y * ratio) in *.
    assert (B2 : z * (999 # 1000) <= z * (1 - u)) by nra.
    assert (B3 : ratio * (999 # 1000) <= z * (1 - u)) by nra.
    nra. }
  assert (A3 : 1001 # 1000 < ratio * (999 # 1000)) by nra.
  nra.
Qed.

End ScaleFacts.

Lemma scale_increasing_witness :
  exists a b : Q,
    Q_of_float (scale (P:=nearest_pow) 4) = Some a
    /\ Q_of_float (scale (P:=nearest_pow) 7) = Some b
    /\ (a < b)%Q.
Proof.
  apply (scale_increasing (P:=nearest_pow) 4 7 (1 # 9007199254740992)
           (inject_Z 5674179970822796 * 2 ^ (-52))%Q
           (inject_Z 6747775193108402 * 2 ^ (-52))%Q).
  - discriminate.
  - discriminate.
  - reflexivity.
  - split.
    + exists 5674179970822796%positive, (-52)%Z.
      split; [vm_compute; reflexivity|]. split; [reflexivity|].
      split; [discriminate | reflexivity].
    + apply Qle_bool_iff. vm_compute. reflexivity.
  - split.
    + exists 6747775193108402%positive, (-52)%Z.
      split; [vm_compute; reflexivity|]. split; [reflexivity|].
      split; [discriminate | reflexivity].
    + apply Qle_bool_iff. vm_compute. reflexivity.
Defined.

Section OscFacts.
Context {L : Libm exact} {P : Pow exact}.
Context {R : Type} {G : Rand R}.
Local Open Scope Q_scope.

(** X9: the square wave is exactly 1 or -1 and does not draw from rand();
    the noise is within [-1, 1] when rand() is within [0, RAND_MAX], and
    draws once; a type that is none of the six gives 0. *)
Theorem osc_ranges (fuel : nat) (dTime dHertz dLFOHertz dLFOAmplitude dCustom : exact)
    (r : R) :
  (exists v, osc fuel dTime dHertz OSC_SQUARE dLFOHertz dLFOAmplitude dCustom r
             = Ok (Some v, r) /\ (v = 1 \/ v = -1))
  /\ (0 < inject_Z RAND_MAX -> 0 <= inject_Z (fst (rand r)) <= inject_Z RAND_MAX ->
      exists v, osc fuel dTime dHertz OSC_NOISE dLFOHertz dLFOAmplitude dCustom r
                = Ok (Some v, snd (rand r)) /\ -1 <= v <= 1)
  /\ (forall nType, (nType < 0 \/ 5 < nType)%Z ->
      osc fuel dTime dHertz nType dLFOHertz dLFOAmplitude dCustom r = Ok (Some 0, r)).
Proof.
  split; [|split].
  - unfold osc. cbn [Z.eqb OSC_SQUARE OSC_SINE Pos.eqb]. unfold ret.
    destruct (flt _ _); eexists; (split; [reflexivity|]); [left | right]; reflexivity.
  - intros HM Hx. unfold osc.
    cbn [Z.eqb OSC_NOISE OSC_SINE OSC_SQUARE OSC_TRIANGLE OSC_SAW_ANA OSC_SAW_DIG Pos.eqb].
    destruct (rand r) as [x r']. cbn [fst snd] in *.
    change (lit (F:=exact) 2) with (Some 2). change (lit (F:=exact) 1) with (Some 1).
    cbv beta iota zeta delta [fsub fmul fdiv of_int exact_num exact_lift2 exact_div].
    replace (Qeq_bool (inject_Z RAND_MAX) 0) with false
      by (symmetry; apply Qeq_bool_false; lra).
    eexists. split; [reflexivity|].
    assert (U0 : 0 <= inject_Z x / inject_Z RAND_MAX) by (apply Qle_shift_div_l; lra).
    assert (U1 : inject_Z x / inject_Z RAND_MAX <= 1) by (apply Qle_shift_div_r; lra).
    lra.
  - intros nType H. unfold osc, OSC_SINE, OSC_SQUARE, OSC_TRIANGLE, OSC_SAW_ANA,
      OSC_SAW_DIG, OSC_NOISE.
    repeat match goal with
           | |- context [(nType =? ?k)%Z] =>
               replace (nType =? k)%Z with false by (symmetry; apply Z.eqb_neq; lia)
           end.
    reflexivity.
Qed.

Lemma saw_loop_ends (dFreq : exact) (c : Q) :
  forall (fuel : nat) (n : Q) (acc : exact),
    c - n <= inject_Z (Z.of_nat fuel) ->
    exists v, saw_loop fuel dFreq (Some c) (Some n) acc = Ok v.
Proof.
  induction fuel as [|fuel IH]; intros n acc H; cbn [saw_loop];
    cbn [flt exact_num exact_lt].
  - change (inject_Z (Z.of_nat 0)) with 0 in H.
    replace (Qle_bool c n) with true by (symmetry; apply Qle_bool_iff; lra).
    eexists. reflexivity.
  - destruct (Qle_bool c n); cbn [negb]; [eexists; reflexivity|].
    change (lit (F:=exact) 1) with (Some 1).
    cbn [fadd exact_num exact_lift2]. apply IH.
    rewrite Nat2Z.inj_succ, <- Z.add_1_r, inject_Z_plus in H.
    change (inject_Z 1) with 1 in H. lra.
Qed.

End OscFacts.

Section SawFacts.
Context {F : Type} {N : Num F} {L : Libm F}.

(* The loop of the saw ends within [fuel] turns when its counter, [fuel]
   increments later, is not below [dCustom]. *)
Lemma saw_loop_counter (dFreq dCustom : F) :
  forall (fuel : nat) (n acc : F),
    flt (saw_counter fuel n) dCustom = false ->
    exists v, saw_loop fuel dFreq dCustom n acc = Ok v.
Proof.
  induction fuel as [|fuel IH]; intros n acc H; cbn [saw_loop saw_counter] in *.
  - rewrite H. eexists. reflexivity.
  - destruct (flt n dCustom); [|eexists; reflexivity].
    apply IH. exact H.
Qed.

End SawFacts.

Section SawOnDoubles.
Context {L : Libm float}.
Context {R : Type} {G : Rand R}.
Local Open Scope float_scope.

(** X10: on doubles the loop of the analogue saw ends within [fuel] turns
    when its counter, after [fuel] increments of 1.0 from 1.0, is not below
    dCustom, and [osc] then returns without drawing from rand(); the counter
    is 50 after 49 turns and 100 after 99, the two values of dCustom that the
    program passes.  From 2^53 on, adding 1.0 leaves the counter as it is,
    and the loop for dCustom = 2^54 does not end, whatever the fuel. *)
Theorem saw_terminates (fuel : nat) (dTime dHertz dLFOHertz dLFOAmplitude dCustom : float)
    (r : R) :
  (PrimFloat.ltb (saw_counter fuel 1) dCustom = false ->
   exists v,
     osc fuel dTime dHertz OSC_SAW_ANA dLFOHertz dLFOAmplitude dCustom r = Ok (v, r))
  /\ saw_counter 49 1 = 50
  /\ saw_counter 99 1 = 100
  /\ 9007199254740992 + 1 = 9007199254740992
  /\ (forall dFreq acc,
        saw_loop fuel dFreq 18014398509481984 9007199254740992 acc = OutOfFuel).
Proof.
  split; [|split; [|split; [|split]]]; try reflexivity.
  - intro H. unfold osc.
    cbn [Z.eqb OSC_SAW_ANA OSC_SINE OSC_SQUARE OSC_TRIANGLE Pos.eqb].
    change (flt (F:=float) (saw_counter fuel (lit 1.0)) dCustom = false) in H.
    match goal with
    | |- context [saw_loop fuel ?f _ _ ?a] =>
        destruct (saw_loop_counter f dCustom fuel (lit 1.0) a H) as [v Hv]
    end.
    unfold bind, lift, ret. rewrite Hv. eexists. reflexivity.
  - induction fuel as [|fuel IH]; intros dFreq acc; [reflexivity|].
    cbn [saw_loop].
    change (flt (F:=float) 9007199254740992 18014398509481984) with true.
    cbv iota.
    change (fadd (F:=float) 9007199254740992 (lit 1.0)) with 9007199254740992.
    apply IH.
Qed.

End SawOnDoubles.

Lemma saw_terminates_witness :
  exists v,
    osc (L:=run_libm) (G:=run_rand) 49
      1%float 8%float OSC_SAW_ANA 0%float 0%float 50%float 0%Z
    = Ok (v, 0%Z).
Proof.
  apply (saw_terminates (L:=run_libm) (G:=run_rand)).
  reflexivity.
Defined.

(** ** Notes in the mixer *)

Section MixerOnRationals.
Context {L : Libm exact} {P : Pow exact}.
Context {R : Type} {G : Rand R}.
Local Open Scope Q_scope.

Lemma osc_saw_harmonica_exact k dTime dHertz dLFOHertz dLFOAmplitude (r : R) :
  exists v r',
    osc (99 + k) dTime dHertz OSC_SAW_ANA dLFOHertz dLFOAmplitude (lit 100) r
    = Ok (v, r').
Proof.
  unfold osc. cbn [Z.eqb OSC_SAW_ANA OSC_SINE OSC_SQUARE OSC_TRIANGLE Pos.eqb].
  change (lit (F:=exact) 100) with (Some 100). change (lit (F:=exact) 1) with (Some 1).
  match goal with
  | |- context [saw_loop _ ?f _ _ ?a] =>
      destruct (saw_loop_ends f 100 (99 + k) 1 a) as [v Hv]
  end.
  { rewrite Nat2Z.inj_add, inject_Z_plus.
    assert (0 <= inject_Z (Z.of_nat k)).
    { change 0 with (inject_Z 0). rewrite <- Zle_Qle. lia. }
    change (inject_Z (Z.of_nat 99)) with 99. lra. }
  unfold bind, lift. rewrite Hv. do 2 eexists. reflexivity.
Qed.

Ltac run_osc_exact :=
  match goal with
  | |- context [bind (osc (99 + ?j) ?a ?b OSC_SAW_ANA ?d ?e ?f) ?k ?r] =>
      let H := fresh "H" in
      destruct (osc_saw_harmonica_exact j a b d e r) as (? & ? & H);
      rewrite (bind_ok _ k H); cbv beta
  | |- context [bind (osc ?fu ?a ?b ?c ?d ?e ?f) ?k ?r] =>
      let H := fresh "H" in
      destruct (osc_plain fu a b c d e f r eq_refl) as (? & ? & H);
      rewrite (bind_ok _ k H); cbv beta
  end.

Lemma sound_total_exact (k : nat) (i : instrument_class) (t : exact)
    (n : note exact) (r : R) :
  exists s r', sound i (99 + k) t n r = Ok ((s, note_finished i t n), r').
Proof.
  destruct i; unfold sound, osc_default, note_finished;
    repeat run_osc_exact; do 2 eexists; reflexivity.
Qed.

(** X22: a render tick keeps a held note of the Harmonica (off < on < t)
    in the registry, and removes a released one (on < off) once
    t >= off + 0.5. *)
Theorem harmonica_note_in_the_mixer (k : nat) (i : Z) (on_ off_ t : Q)
    (v : list (note exact)) (r : R) :
  let n := exact_note i on_ off_ true (Some instHarm) in
  In n v ->
  exists out v' r',
    MakeNoise (99 + k) (Some t) v r = Ok ((out, v'), r')
    /\ (off_ < on_ -> on_ < t -> In n v')
    /\ (on_ < off_ -> off_ + (1#2) <= t -> ~ In n v').
Proof.
  intros n Hin.
  destruct (MakeNoise_spec (99 + k) (sound_total_exact k) (Some t) v r)
    as (ss & r' & _ & H).
  do 3 eexists. split; [exact H|]. split.
  - intros Hoff Ht. apply filter_In. split; [exact Hin|].
    change (true && negb (note_finished (F:=exact) instHarm (Some t)
                            (exact_note i on_ off_ true (Some instHarm))) = true).
    rewrite (harmonica_held_unfinished i on_ off_ t true (Some instHarm) Hoff Ht).
    reflexivity.
  - intros Hoff Ht Hn. apply filter_In in Hn. destruct Hn as [_ Hn].
    change (true && negb (note_finished (F:=exact) instHarm (Some t)
                            (exact_note i on_ off_ true (Some instHarm))) = true) in Hn.
    rewrite (harmonica_released_finished i on_ off_ t true (Some instHarm) Hoff Ht) in Hn.
    discriminate Hn.
Qed.

End MixerOnRationals.

Lemma harmonica_note_in_the_mixer_witness :
  exists out v' r',
    MakeNoise (L:=run_libm_exact) (P:=exact_pow) (G:=run_rand) 99 (Some 2%Q)
      [exact_note 64 1 0 true (Some instHarm)] 0%Z
    = Ok ((out, v'), r')
    /\ ((0 < 1)%Q -> (1 < 2)%Q -> In (exact_note 64 1 0 true (Some instHarm)) v')
    /\ ((1 < 0)%Q -> (0 + (1#2) <= 2)%Q ->
        ~ In (exact_note 64 1 0 true (Some instHarm)) v').
Proof.
  exact (harmonica_note_in_the_mixer (L:=run_libm_exact) (P:=exact_pow) (G:=run_rand)
           0 64 1 0 2 [exact_note 64 1 0 true (Some instHarm)] 0%Z
           (or_introl eq_refl)).
Defined.

(** X11: [safe_remove] keeps, in their order, exactly the elements on
    which the test is true; removing once more changes nothing. *)
Theorem safe_remove_is_filter {T : Type} (f : T -> bool) (v : list T) :
  safe_remove f v = filter f v
  /\ (forall x, In x (safe_remove f v) <-> In x v /\ f x = true)
  /\ safe_remove f (safe_remove f v) = safe_remove f v.
Proof.
  assert (E : forall l, safe_remove f l = filter f l).
  { induction l as [|x l IH]; [reflexivity|].
    cbn [safe_remove filter]. rewrite IH. destruct (f x); reflexivity. }
  split; [apply E|]. split.
  - intro x. rewrite E. apply filter_In.
  - rewrite !E. induction v as [|x v IH]; [reflexivity|].
    cbn [filter]. destruct (f x) eqn:Hx; [|exact IH].
    cbn [filter]. rewrite Hx, IH. reflexivity.
Qed.

Lemma filter_twice {T : Type} (f : T -> bool) (v : list T) :
  filter f (filter f v) = filter f v.
Proof.
  induction v as [|x v IH]; [reflexivity|].
  cbn [filter]. destruct (f x) eqn:Hx; [|exact IH].
  cbn [filter]. rewrite Hx, IH. reflexivity.
Qed.

Section MixerExtras.
Context {L : Libm float} {P : Pow float}.
Context {R : Type} {G : Rand R}.
Local Open Scope float_scope.

(** X12: a second render tick at the same time removes no further note;
    a tick never makes the registry longer, and never adds a voice to a
    key. *)
Theorem second_tick_keeps_registry (k : nat) (t : float) (v : list (note float)) (r : R) :
  exists out v' r' out2 r2,
    MakeNoise (99 + k) t v r = Ok ((out, v'), r')
    /\ MakeNoise (99 + k) t v' r' = Ok ((out2, v'), r2)
    /\ (List.length v' <= List.length v)%nat
    /\ (forall j, voices j v' <= voices j v)%nat.
Proof.
  destruct (MakeNoise_spec (99 + k) (sound_total_float k) t v r) as (ss & r' & _ & H).
  set (keep := fun n : note float => active n && negb (reported_finished t n)) in *.
  destruct (MakeNoise_spec (99 + k) (sound_total_float k) t (filter keep v) r')
    as (ss2 & r2 & _ & H2).
  fold keep in H2. rewrite filter_twice in H2.
  do 5 eexists. split; [exact H|]. split; [exact H2|]. split.
  - apply filter_length_le.
  - intro j. unfold voices. clear. induction v as [|n v IH]; [apply le_n|].
    cbn [filter]. destruct (keep n); cbn [filter];
      destruct (is_key_note j n); cbn [List.length]; lia.
Qed.

End MixerExtras.

Section KeyboardExtras.
Context {F : Type} {N : Num F}.

Lemma key_event_inert (event : SDL_Event) (time : F) (k code : Z) (v : list (note F)) :
  event_type_eqb (ev_type event) SDL_KEYDOWN
    && (ev_scancode event =? code)%Z && (ev_repeat event =? 0)%Z = false ->
  event_type_eqb (ev_type event) SDL_KEYUP && (ev_scancode event =? code)%Z = false ->
  key_event event time k code v = Ok v.
Proof. intros H1 H2. unfold key_event. rewrite H1, H2. reflexivity. Qed.

Lemma key_loop_inert (event : SDL_Event) (time : F) (codes : list Z) :
  (forall code, In code codes ->
     event_type_eqb (ev_type event) SDL_KEYDOWN
       && (ev_scancode event =? code)%Z && (ev_repeat event =? 0)%Z = false
     /\ event_type_eqb (ev_type event) SDL_KEYUP && (ev_scancode event =? code)%Z = false) ->
  forall (k : Z) (v : list (note F)), key_loop event time k codes v = Ok v.
Proof.
  induction codes as [|code codes IH]; intros H k v; [reflexivity|].
  cbn [key_loop]. destruct (H code (or_introl eq_refl)) as [H1 H2].
  rewrite (key_event_inert event time k code v H1 H2).
  apply IH. intros c Hc. apply H. right. exact Hc.
Qed.

(** X13: an event that is SDL_QUIT or of another type than key down and
    key up, a key down that is a repeat, and a key that is none of the seven
    leave the registry as it is; SDL_QUIT alone clears [isActive]. *)
Theorem ignored_events (event : SDL_Event) (time : F) (isActive : bool)
    (v : list (note F)) :
  ev_type event = SDL_QUIT \/ ev_type event = SDL_OTHER
  \/ (ev_type event = SDL_KEYDOWN /\ ev_repeat event <> 0%Z)
  \/ ~ In (ev_scancode event) notes ->
  handle_event event time isActive v
  = Ok (if event_type_eqb (ev_type event) SDL_QUIT then false else isActive, v).
Proof.
  intro H. unfold handle_event. rewrite key_loop_inert; [reflexivity|].
  intros code Hcode.
  destruct H as [H|[H|[[H Hr]|H]]].
  - rewrite H. split; reflexivity.
  - rewrite H. split; reflexivity.
  - rewrite H. cbn [event_type_eqb andb].
    replace (ev_repeat event =? 0)%Z with false by (symmetry; apply Z.eqb_neq; exact Hr).
    rewrite andb_false_r. split; reflexivity.
  - replace (ev_scancode event =? code)%Z with false
      by (symmetry; apply Z.eqb_neq; intro E; apply H; rewrite E; exact Hcode).
    rewrite !andb_false_r. split; reflexivity.
Qed.

(** X14: a key that goes down while its note is in the registry adds no
    note: a released note (off > on) gets on = time and active = true and
    keeps its off, any other note is left as it is. *)
Theorem key_down_on_existing_note (k : nat) (code : Z) (time : F) (isActive : bool)
    (pre post : list (note F)) (n : note F) :
  nth_error notes k = Some code ->
  find_if (is_key_note (Z.of_nat k)) pre = None ->
  is_key_note (Z.of_nat k) n = true ->
  handle_event (key_down code) time isActive (pre ++ n :: post)
  = Ok (isActive,
        pre ++ (if flt (on n) (off n) then set_active (set_on n time) true else n)
            :: post).
Proof.
  intros Hk Hpre Hn. unfold handle_event.
  rewrite (key_loop_at (key_down code) time k code _ Hk eq_refl).
  unfold key_event. cbn [key_down ev_type ev_scancode ev_repeat event_type_eqb andb].
  rewrite Z.eqb_refl. cbn [Z.eqb andb].
  change (find_if _ (pre ++ n :: post))
    with (find_if (is_key_note (Z.of_nat k)) (pre ++ n :: post)).
  rewrite (find_if_app _ pre post n Hpre Hn), nth_error_middle.
  destruct (flt (on n) (off n)); [rewrite assign_at_middle|]; reflexivity.
Qed.

(** X15: a key that goes up while its note is in the registry sets
    off = time when the note is held (off < on) and changes nothing
    otherwise, as for a note released before. *)
Theorem key_up_on_existing_note (k : nat) (code : Z) (time : F) (isActive : bool)
    (pre post : list (note F)) (n : note F) :
  nth_error notes k = Some code ->
  find_if (is_key_note (Z.of_nat k)) pre = None ->
  is_key_note (Z.of_nat k) n = true ->
  handle_event (key_up code) time isActive (pre ++ n :: post)
  = Ok (isActive,
        pre ++ (if flt (off n) (on n) then set_off n time else n) :: post).
Proof.
  intros Hk Hpre Hn. unfold handle_event.
  rewrite (key_loop_at (key_up code) time k code _ Hk eq_refl).
  unfold key_event. cbn [key_up ev_type ev_scancode ev_repeat event_type_eqb andb].
  rewrite Z.eqb_refl.
  change (find_if _ (pre ++ n :: post))
    with (find_if (is_key_note (Z.of_nat k)) (pre ++ n :: post)).
  rewrite (find_if_app _ pre post n Hpre Hn), nth_error_middle.
  destruct (flt (off n) (on n)); [rewrite assign_at_middle|]; reflexivity.
Qed.

(** X16: a key that goes down at t1 with no note of its own adds the note
    (on = t1, off = 0) at the end of the registry; when the key goes up at
    t2 that note gets off = t2 if 0 < t1, and is left unreleased if not, as
    for a key pressed at time 0. *)
Theorem press_then_release (k : nat) (code : Z) (t1 t2 : F) (isActive : bool)
    (v : list (note F)) :
  nth_error notes k = Some code ->
  find_if (is_key_note (Z.of_nat k)) v = None ->
  let pressed :=
    {| id := Z.of_nat k + 64; on := t1; off := lit 0.0; active := true;
       channel := Some instHarm |} in
  handle_event (key_down code) t1 isActive v = Ok (isActive, v ++ [pressed])
  /\ handle_event (key_up code) t2 isActive (v ++ [pressed])
     = Ok (isActive,
           v ++ [if flt (lit 0.0) t1 then set_off pressed t2 else pressed]).
Proof.
  intros Hk Hfind pressed. split.
  - unfold handle_event.
    rewrite (key_loop_at (key_down code) t1 k code _ Hk eq_refl).
    unfold key_event. cbn [key_down ev_type ev_scancode ev_repeat event_type_eqb andb].
    rewrite Z.eqb_refl. cbn [Z.eqb andb].
    change (find_if _ v) with (find_if (is_key_note (Z.of_nat k)) v).
    rewrite Hfind. reflexivity.
  - unfold handle_event.
    rewrite (key_loop_at (key_up code) t2 k code _ Hk eq_refl).
    unfold key_event. cbn [key_up ev_type ev_scancode ev_repeat event_type_eqb andb].
    rewrite Z.eqb_refl.
    change (find_if _ (v ++ [pressed]))
      with (find_if (is_key_note (Z.of_nat k)) (v ++ [pressed])).
    assert (Hn : is_key_note (Z.of_nat k) pressed = true).
    { unfold is_key_note, pressed, channel_is. cbn [id channel].
      rewrite Z.eqb_refl. reflexivity. }
    rewrite (find_if_app _ v [] pressed Hfind Hn), nth_error_middle.
    cbn [off on pressed].
    destruct (flt (lit 0.0) t1); [rewrite assign_at_middle|]; reflexivity.
Qed.

End KeyboardExtras.

Section VoiceFacts.
Context {F : Type} {N : Num F}.

Lemma voices_app (j : Z) (v w : list (note F)) :
  voices j (v ++ w) = (voices j v + voices j w)%nat.
Proof. unfold voices. rewrite filter_app, length_app. reflexivity. Qed.

Lemma find_if_none_voices (j : Z) (v : list (note F)) :
  find_if (is_key_note j) v = None -> voices j v = 0%nat.
Proof.
  unfold voices. induction v as [|x v IH]; intro H; [reflexivity|].
  cbn [find_if] in H. cbn [filter]. destruct (is_key_note j x); [discriminate H|].
  destruct (find_if (is_key_note j) v); [discriminate H|]. apply IH. reflexivity.
Qed.

Lemma voices_assign_at (j : Z) (x y : note F) :
  is_key_note j y = is_key_note j x ->
  forall (v : list (note F)) (i : nat),
    nth_error v i = Some x -> voices j (assign_at i y v) = voices j v.
Proof.
  intros E. unfold voices. induction v as [|z v IH]; intros i H.
  - destruct i; discriminate H.
  - destruct i as [|i]; cbn [nth_error] in H; cbn [assign_at filter].
    + injection H as ->. rewrite E. destruct (is_key_note j x); reflexivity.
    + destruct (is_key_note j z); cbn [List.length]; rewrite (IH i H); reflexivity.
Qed.

Lemma key_event_voices (event : SDL_Event) (time : F) (k code : Z)
    (v v' : list (note F)) :
  key_event event time k code v = Ok v' ->
  (forall j, voices j v <= 1)%nat -> forall j, (voices j v' <= 1)%nat.
Proof.
  unfold key_event. intros H Hinv.
  change (find_if _ v) with (find_if (is_key_note k) v) in H.
  set (down := event_type_eqb (ev_type event) SDL_KEYDOWN
               && (ev_scancode event =? code)%Z && (ev_repeat event =? 0)%Z) in H.
  set (up := event_type_eqb (ev_type event) SDL_KEYUP && (ev_scancode event =? code)%Z) in H.
  assert (Hdown : forall w,
    (if down then
       match find_if (is_key_note k) v with
       | None =>
           Ok (v ++ [set_channel (set_active (set_on (set_id note_default (k + 64)) time) true)
                       (Some instHarm)])
       | Some i =>
           match nth_error v i with
           | Some found =>
               if flt (on found) (off found)
               then Ok (assign_at i (set_active (set_on found time) true) v)
               else Ok v
           | None => Undefined
           end
       end
     else Ok v) = Ok w -> forall j, (voices j w <= 1)%nat).
  { intros w Hw j. destruct down; [|injection Hw as <-; apply Hinv].
    destruct (find_if (is_key_note k) v) as [i|] eqn:Hf.
    - destruct (nth_error v i) as [found|] eqn:Hn; [|discriminate Hw].
      destruct (flt (on found) (off found)); injection Hw as <-; [|apply Hinv].
      rewrite (voices_assign_at j found (set_active (set_on found time) true)
                 eq_refl v i Hn). apply Hinv.
    - injection Hw as <-. rewrite voices_app.
      unfold voices at 2. cbn [filter].
      destruct (is_key_note j _) eqn:Hj; cbn [List.length].
      + assert (j = k).
        { unfold is_key_note in Hj. cbn [id set_channel set_active set_on set_id] in Hj.
          apply andb_true_iff in Hj. destruct Hj as [Hj _].
          apply Z.eqb_eq in Hj. lia. }
        subst j. rewrite (find_if_none_voices k v Hf). lia.
      + specialize (Hinv j). lia. }
  match type of H with
  | match ?a with _ => _ end = _ => destruct a as [w| |] eqn:Ha; try discriminate H
  end.
  pose proof (Hdown w eq_refl) as Hw.
  destruct up; [|injection H as <-; exact Hw].
  destruct (find_if (is_key_note k) v) as [i|]; [|discriminate H].
  destruct (nth_error w i) as [found|] eqn:Hn; [|discriminate H].
  destruct (flt (off found) (on found)); injection H as <-; [|exact Hw].
  intro j. rewrite (voices_assign_at j found (set_off found time) eq_refl w i Hn).
  apply Hw.
Qed.

Lemma key_loop_voices (event : SDL_Event) (time : F) (codes : list Z) :
  forall (k : Z) (v v' : list (note F)),
    key_loop event time k codes v = Ok v' ->
    (forall j, voices j v <= 1)%nat -> forall j, (voices j v' <= 1)%nat.
Proof.
  induction codes as [|code codes IH]; intros k v v' H Hinv.
  - injection H as <-. exact Hinv.
  - cbn [key_loop] in H.
    destruct (key_event event time k code v) as [w| |] eqn:Hw; try discriminate H.
    exact (IH (k + 1)%Z w v' H (key_event_voices event time k code v w Hw Hinv)).
Qed.

(** X17: an event of the keyboard never gives a key a second voice: if
    the registry holds at most one note for every key, it does so after the
    event. *)
Theorem one_voice_per_key (event : SDL_Event) (time : F) (isActive isActive' : bool)
    (v v' : list (note F)) :
  handle_event event time isActive v = Ok (isActive', v') ->
  (forall j, voices j v <= 1)%nat ->
  forall j, (voices j v' <= 1)%nat.
Proof.
  unfold handle_event. intros H Hinv.
  destruct (key_loop event time 0 notes v) as [w| |] eqn:Hw; try discriminate H.
  injection H as _ <-. exact (key_loop_voices event time notes 0%Z v w Hw Hinv).
Qed.

End VoiceFacts.

Section KeyboardRuns.
Local Open Scope float_scope.

Lemma ignored_events_witness :
  handle_event {| ev_type := SDL_QUIT; ev_scancode := 0; ev_repeat := 0 |} 1 true
    [ {| id := 64; on := 1; off := 0; active := true; channel := Some instHarm |} ]
  = Ok (false,
        [ {| id := 64; on := 1; off := 0; active := true; channel := Some instHarm |} ]).
Proof. apply (ignored_events (F:=float)). left. reflexivity. Defined.

Lemma key_down_on_existing_note_witness :
  handle_event (key_down SDL_SCANCODE_X) 2 true
    [ {| id := 65; on := 1; off := 0; active := true; channel := Some instHarm |} ]
  = Ok (true,
        [ {| id := 65; on := 1; off := 0; active := true; channel := Some instHarm |} ]).
Proof.
  exact (key_down_on_existing_note (F:=float) 1 SDL_SCANCODE_X 2 true [] []
           {| id := 65; on := 1; off := 0; active := true; channel := Some instHarm |}
           eq_refl eq_refl eq_refl).
Defined.

Lemma key_up_on_existing_note_witness :
  handle_event (key_up SDL_SCANCODE_X) 2 true
    [ {| id := 65; on := 1; off := 0; active := true; channel := Some instHarm |} ]
  = Ok (true,
        [ {| id := 65; on := 1; off := 2; active := true; channel := Some instHarm |} ]).
Proof.
  exact (key_up_on_existing_note (F:=float) 1 SDL_SCANCODE_X 2 true [] []
           {| id := 65; on := 1; off := 0; active := true; channel := Some instHarm |}
           eq_refl eq_refl eq_refl).
Defined.

Lemma press_then_release_witness :
  handle_event (key_down SDL_SCANCODE_M) 1 true []
  = Ok (true,
        [ {| id := 70; on := 1; off := 0; active := true; channel := Some instHarm |} ])
  /\ handle_event (key_up SDL_SCANCODE_M) 3 true
       [ {| id := 70; on := 1; off := 0; active := true; channel := Some instHarm |} ]
     = Ok (true,
           [ {| id := 70; on := 1; off := 3; active := true; channel := Some instHarm |} ]).
Proof.
  exact (press_then_release (F:=float) 6 SDL_SCANCODE_M 1 3 true [] eq_refl eq_refl).
Defined.

Lemma one_voice_per_key_witness :
  (voices 0
     [ {| id := 64; on := 1; off := 0; active := true; channel := Some instHarm |} ]
   <= 1)%nat.
Proof.
  assert (H : handle_event (key_down SDL_SCANCODE_Z) 1 true []
              = Ok (true,
                    [ {| id := 64; on := 1; off := 0; active := true;
                         channel := Some instHarm |} ]))
    by reflexivity.
  exact (one_voice_per_key (key_down SDL_SCANCODE_Z) 1 true true [] _ H
           (fun _ => le_0_n 1) 0%Z).
Defined.

End KeyboardRuns.

(** ** The sequencer, in general *)

Section SequencerExtras.
Context {F : Type} {N : Num F}.
Local Open Scope num_scope.

(** X18: an update whose elapsed time leaves the accumulator below a
    sub-beat emits no note and keeps the step counter; the notes of the
    update before are cleared. *)
Theorem update_below_a_step (fuel : nat) (q : sequencer F) (fElapsedTime : F) :
  fle (fBeatTime q) (fAccumulate q + fElapsedTime) = false ->
  exists q',
    Update fuel q fElapsedTime = Ok (0%Z, q')
    /\ nCurrentBeat q' = nCurrentBeat q
    /\ fAccumulate q' = fAccumulate q + fElapsedTime
    /\ vecNotes q' = [].
Proof.
  intro H. unfold Update.
  destruct fuel; cbn [Update_loop fAccumulate fBeatTime]; rewrite H;
    eexists; (split; [reflexivity|]); repeat split.
Qed.

Lemma wchar_at_fuel (s : string) (i : Z) : wchar_at s i <> OutOfFuel.
Proof.
  unfold wchar_at. destruct (i <? 0)%Z; [discriminate|].
  destruct (String.get (Z.to_nat i) s); [discriminate|].
  destruct (i =? Z.of_nat (String.length s))%Z; discriminate.
Qed.

Lemma Update_channels_emits (all : list sequencer_channel) (beat : Z) :
  forall (vs : list sequencer_channel) (c : nat) (out out' : list (note F)),
    Update_channels all vs c beat out = Ok out' ->
    exists added, out' = out ++ added /\ Forall (emitted all) added.
Proof.
  induction vs as [|v vs IH]; intros c out out' H; cbn [Update_channels] in H.
  - injection H as <-. exists []. split; [symmetry; apply app_nil_r | constructor].
  - destruct (wchar_at (sBeat v) beat) as [ch| |]; try discriminate H.
    destruct (Ascii.eqb ch "X").
    + destruct (nth_error all c) as [vc|] eqn:Hc; [|discriminate H].
      destruct (IH _ _ _ H) as (added & -> & Hall).
      eexists (_ :: added). split; [rewrite <- app_assoc; reflexivity|].
      constructor; [|exact Hall].
      unfold emitted. cbn [id active on off channel set_id set_active set_channel note_default].
      repeat split; try reflexivity.
      exists vc. split; [exact (nth_error_In _ _ Hc) | reflexivity].
    + exact (IH _ _ _ H).
Qed.

Lemma Update_loop_keeps (fuel : nat) :
  forall q q' : sequencer F,
    Update_loop fuel q = Ok q' ->
    (0 <= nCurrentBeat q < nTotalBeats q)%Z ->
    (0 <= nCurrentBeat q' < nTotalBeats q')%Z
    /\ nTotalBeats q' = nTotalBeats q /\ nBeats q' = nBeats q
    /\ nSubBeats q' = nSubBeats q /\ fTempo q' = fTempo q
    /\ fBeatTime q' = fBeatTime q /\ vecChannel q' = vecChannel q
    /\ fle (fBeatTime q') (fAccumulate q') = false
    /\ exists added, vecNotes q' = vecNotes q ++ added
                     /\ Forall (emitted (vecChannel q)) added.
Proof.
  induction fuel as [|fuel IH]; intros q q' H Hr; cbn [Update_loop] in H.
  - destruct (fle (fBeatTime q) (fAccumulate q)) eqn:E; [discriminate H|].
    injection H as <-. repeat split; try lia; try exact E.
    exists []. split; [symmetry; apply app_nil_r | constructor].
  - destruct (fle (fBeatTime q) (fAccumulate q)) eqn:E.
    + match type of H with
      | match ?a with _ => _ end = _ => destruct a as [out| |] eqn:Hout; try discriminate H
      end.
      destruct (Update_channels_emits _ _ _ _ _ _ Hout) as (added & -> & Hadd).
      apply IH in H.
      * cbn [nCurrentBeat nTotalBeats nBeats nSubBeats fTempo fBeatTime vecChannel
             vecNotes fAccumulate] in H.
        destruct H as (H1 & H2 & H3 & H4 & H5 & H6 & H7 & H8 & added' & H9 & H10).
        repeat split; try assumption; try lia.
        exists (added ++ added'). split; [rewrite H9, app_assoc; reflexivity|].
        apply Forall_app. split; assumption.
      * cbn [nCurrentBeat nTotalBeats].
        destruct (nCurrentBeat q + 1 >=? nTotalBeats q)%Z eqn:Eb; [lia|].
        rewrite Z.geb_leb in Eb. apply Z.leb_gt in Eb. lia.
    + injection H as <-. repeat split; try lia; try exact E.
      exists []. split; [symmetry; apply app_nil_r | constructor].
Qed.

(** X19: an update that returns keeps the step counter within
    [0, nTotalBeats), leaves the step time and the channels as they are,
    leaves the accumulator below one step, returns the number of notes it
    holds, and holds only notes with id 64, active, on = off = 0 and the
    instrument of one of the channels. *)
Theorem Update_invariants (fuel : nat) (q q' : sequencer F) (fElapsedTime : F) (n : Z) :
  Update fuel q fElapsedTime = Ok (n, q') ->
  (0 <= nCurrentBeat q < nTotalBeats q)%Z ->
  (0 <= nCurrentBeat q' < nTotalBeats q')%Z
  /\ nTotalBeats q' = nTotalBeats q
  /\ fBeatTime q' = fBeatTime q
  /\ vecChannel q' = vecChannel q
  /\ fle (fBeatTime q') (fAccumulate q') = false
  /\ n = Z.of_nat (List.length (vecNotes q'))
  /\ Forall (emitted (vecChannel q)) (vecNotes q').
Proof.
  unfold Update. intros H Hr.
  match type of H with
  | match ?a with _ => _ end = _ => destruct a as [q1| |] eqn:Hq; try discriminate H
  end.
  injection H as <- <-.
  apply Update_loop_keeps in Hq; [|exact Hr].
  cbn [nCurrentBeat nTotalBeats nBeats nSubBeats fTempo fBeatTime vecChannel
       vecNotes fAccumulate] in Hq.
  destruct Hq as (H1 & H2 & _ & _ & _ & H6 & H7 & H8 & added & H9 & H10).
  cbn [app] in H9. rewrite H9.
  repeat split; try assumption; try lia.
Qed.

Lemma Update_channels_undefined (all : list sequencer_channel) (beat : Z)
    (ch : sequencer_channel) :
  wchar_at (sBeat ch) beat = Undefined ->
  forall (vs : list sequencer_channel) (c : nat) (out : list (note F)),
    In ch vs -> Update_channels all vs c beat out = Undefined.
Proof.
  intros Hch. induction vs as [|v vs IH]; intros c out Hin; [destruct Hin|].
  cbn [Update_channels].
  destruct (wchar_at (sBeat v) beat) as [x| |] eqn:Hv.
  - destruct Hin as [->|Hin]; [rewrite Hch in Hv; discriminate Hv|].
    destruct (Ascii.eqb x "X"); [destruct (nth_error all c); [|reflexivity]|];
      apply IH; exact Hin.
  - exfalso. exact (wchar_at_fuel _ _ Hv).
  - reflexivity.
Qed.

Lemma get_beyond (s : string) :
  forall i, (String.length s <= i)%nat -> String.get i s = None.
Proof.
  induction s as [|a s IH]; intros i Hi.
  - destruct i; reflexivity.
  - destruct i as [|i]; cbn [String.length] in Hi; [lia|].
    cbn [String.get]. apply IH. lia.
Qed.

(** X20: when an update takes a step beyond the end of the pattern of a
    channel, as for a channel that [AddInstrument] has just added, whose
    pattern is empty, reading the pattern is undefined behaviour. *)
Theorem pattern_too_short_is_undefined (fuel : nat) (q : sequencer F)
    (fElapsedTime : F) (ch : sequencer_channel) :
  fle (fBeatTime q) (fAccumulate q + fElapsedTime) = true ->
  In ch (vecChannel q) ->
  (Z.of_nat (String.length (sBeat ch)) < next_beat q)%Z ->
  Update (S fuel) q fElapsedTime = Undefined.
Proof.
  intros Hacc Hin Hlen. unfold Update. cbn [Update_loop fAccumulate fBeatTime].
  rewrite Hacc. cbn [nCurrentBeat nTotalBeats vecChannel vecNotes].
  fold (next_beat q).
  rewrite (Update_channels_undefined (vecChannel q) (next_beat q) ch); [reflexivity| |exact Hin].
  unfold wchar_at.
  replace (next_beat q <? 0)%Z with false by (symmetry; apply Z.ltb_ge; lia).
  replace (String.get (Z.to_nat (next_beat q)) (sBeat ch)) with (@None ascii).
  - replace (next_beat q =? Z.of_nat (String.length (sBeat ch)))%Z with false
      by (symmetry; apply Z.eqb_neq; lia).
    reflexivity.
  - symmetry. apply get_beyond. lia.
Qed.

End SequencerExtras.

Section SequencerRuns.
Local Open Scope float_scope.
Local Open Scope string_scope.

Lemma update_below_a_step_witness :
  exists q',
    Update 0 (one_channel 0 3 [sequencer_note None] None "X...............") 0.1
    = Ok (0%Z, q')
    /\ nCurrentBeat q' = 3%Z
    /\ fAccumulate q' = 0 + 0.1
    /\ vecNotes q' = [].
Proof.
  exact (update_below_a_step (F:=float) 0
           (one_channel 0 3 [sequencer_note None] None "X...............") 0.1 eq_refl).
Defined.

Lemma Update_invariants_witness :
  (0 <= nCurrentBeat (one_channel 0 0 [sequencer_note (Some instKick)] (Some instKick)
                        "X...............")
   < nTotalBeats (one_channel 0 0 [sequencer_note (Some instKick)] (Some instKick)
                    "X..............."))%Z.
Proof.
  refine (proj1 (Update_invariants (F:=float) 16
            (one_channel 0 0 [] (Some instKick) "X...............")
            (one_channel 0 0 [sequencer_note (Some instKick)] (Some instKick)
               "X...............")
            2 1 eq_refl _)).
  split; [discriminate | reflexivity].
Defined.

Lemma pattern_too_short_is_undefined_witness :
  Update 1 (AddInstrument (sequencer_new 120 4 4) (Some instKick)) 0.125 = Undefined.
Proof.
  refine (pattern_too_short_is_undefined (F:=float) 0
            (AddInstrument (sequencer_new 120 4 4) (Some instKick)) 0.125
            {| instrument := Some instKick; sBeat := "" |} eq_refl _ _).
  - left. reflexivity.
  - reflexivity.
Defined.

End SequencerRuns.

(** ** The audio callback *)

Section CallbackFacts.
Context {L : Libm float} {P : Pow float}.
Context {R : Type} {G : Rand R}.
Context {Sample : Type} {W : Narrow float Sample}.

Lemma ticks_trans (fuel : nat) (v1 v2 v3 : list (note float)) (r1 r2 r3 : R) :
  ticks fuel v1 r1 v2 r2 -> ticks fuel v2 r2 v3 r3 -> ticks fuel v1 r1 v3 r3.
Proof.
  induction 1 as [|t v r out v' r' v'' r'' Hstep _ IH]; intro H; [exact H|].
  eapply ticks_more; [exact Hstep | exact (IH H)].
Qed.

Lemma audioCallback_loop_spec (k : nat) (count : Z) (turns : nat) :
  forall (sid : Z) (last : float) (fstream : list Sample) (v : list (note float)) (r : R),
    exists last' values v' r',
      audioCallback_loop (99 + k) turns sid count last fstream v r
      = Ok ((last', fstream ++ flat_map (fun x => [narrow x; narrow x]) values, v'), r')
      /\ List.length values = turns
      /\ ticks (99 + k) v r v' r'
      /\ (turns = 0%nat -> last' = last /\ v' = v /\ r' = r).
Proof.
  induction turns as [|turns IH]; intros sid last fstream v r.
  - exists last, [], v, r. cbn [audioCallback_loop flat_map]. rewrite app_nil_r.
    repeat split. apply ticks_none.
  - cbn [audioCallback_loop].
    set (t := fdiv (of_int ((count + sid) mod 2 ^ 64)) (lit 44100)).
    destruct (MakeNoise_spec (99 + k) (sound_total_float k) t v r) as (ss & r1 & _ & H).
    rewrite (bind_ok _ _ H). cbn [fst snd].
    match goal with
    | |- context [audioCallback_loop _ _ _ _ _ ?fs ?v1 r1] =>
        destruct (IH (sid + 1)%Z t fs v1 r1) as (last' & values & v' & r' & E & Hl & Ht & _)
    end.
    eexists last', (_ :: values), v', r'. split; [|split; [|split]].
    + rewrite E. cbn [flat_map]. rewrite <- app_assoc. reflexivity.
    + cbn [List.length]. rewrite Hl. reflexivity.
    + eapply ticks_more; [exact H | exact Ht].
    + discriminate.
Qed.

(** X21: a call of audioCallback returns; it writes length / 8 frames, the
    left and the right sample of each being the same value, advances
    [sampleCount] by length / 8, runs one render tick per frame, so that the
    registry afterwards holds only notes it held before; with length < 8 it
    renders nothing and leaves time, registry and rand() as they are. *)
Theorem audioCallback_frames (k : nat) (data : Data float) (length : Z)
    (v : list (note float)) (r : R) :
  (0 <= sampleCount data)%Z -> (sampleCount data + length ÷ 8 < 2 ^ 63)%Z ->
  exists last values v' r',
    audioCallback (99 + k) data length v r
    = Ok (({| sampleCount := (sampleCount data + length ÷ 8) mod 2 ^ 64; time := last |},
           flat_map (fun x => [narrow x; narrow x]) values, v'), r')
    /\ List.length values = Z.to_nat (length ÷ 8)
    /\ ticks (99 + k) v r v' r'
    /\ (forall n, In n v' -> In n v)
    /\ ((length < 8)%Z -> last = time data /\ values = [] /\ v' = v /\ r' = r).
Proof.
  intros _ _. unfold audioCallback.
  destruct (audioCallback_loop_spec k (sampleCount data) (Z.to_nat (length ÷ 8))
              0%Z (time data) [] v r) as (last & values & v' & r' & E & Hl & Ht & H0).
  rewrite (bind_ok _ _ E). cbn [fst snd app].
  exists last, values, v', r'. split; [reflexivity|]. split; [exact Hl|].
  split; [exact Ht|]. split.
  - exact (ticks_shrink (99 + k) (sound_total_float k) _ _ _ _ Ht).
  - intro Hlen.
    assert (Hz : Z.to_nat (length ÷ 8) = 0%nat).
    { assert (length ÷ 8 <= 0)%Z; [|lia].
      destruct (Z.le_gt_cases 0 length) as [Hp|Hn].
      - rewrite Z.quot_small by lia. lia.
      - replace length with (- - length)%Z by lia.
        rewrite Z.quot_opp_l by lia.
        pose proof (Z.quot_pos (- length) 8). lia. }
    destruct (H0 Hz) as (E1 & E2 & E3).
    rewrite Hz in Hl. destruct values; [|discriminate Hl]. repeat split; assumption.
Qed.
End CallbackFacts.

Lemma audioCallback_frames_witness :
  exists last values v' r',
    audioCallback (L:=run_libm) (P:=run_pow) (G:=run_rand) (W:=run_narrow) 99
      Data_default 32
      [ {| id := 64; on := 0%float; off := (-1)%float; active := true;
           channel := Some instHarm |} ] 0%Z
    = Ok (({| sampleCount := (0 + 32 ÷ 8) mod 2 ^ 64; time := last |},
           flat_map (fun x => [run_narrow x; run_narrow x]) values, v'), r')
    /\ List.length values = Z.to_nat (32 ÷ 8).
Proof.
  destruct (audioCallback_frames (L:=run_libm) (P:=run_pow) (G:=run_rand) (W:=run_narrow)
              0 Data_default 32
              [ {| id := 64; on := 0%float; off := (-1)%float; active := true;
                   channel := Some instHarm |} ] 0%Z)
    as (last & values & v' & r' & H1 & H2 & _).
  - discriminate.
  - reflexivity.
  - exists last, values, v', r'. split; [exact H1 | exact H2].
Defined.
